(** * Emoji face detector: the tracker, the smoother and the overlay

    A shallow embedding of the computing core of [src/app.js]: [clamp],
    [centerOf], [assignTracks], [emaExpressions], [bestExpression],
    [serializeDetections], and of [drawBoxesAndEmojis] the expression
    lookup, the sidebar summary, the size of the emoji and the trails.
    What the script does to the page, the camera and the canvas is not
    modelled.

    Numbers.  JavaScript numbers are IEEE-754 binary64 values, and so are
    Rocq's primitive floats: coordinates, timestamps and probabilities are
    [float], and every test of the source ([<], [>]) is the primitive
    comparison, NaN included.  The one library function whose result the
    language leaves to the engine, [Math.hypot], is a parameter of the
    model (the class [Engine]).  The counter [nextId] is a binary64 number
    too; it only ever holds the integers from 1 to 2^53, and is an integer
    ([Z]) whose increment stops at 2^53, as the number's does.

    Containers.  The track table is a JavaScript [Map]; its iteration order
    is its insertion order and the scan of [assignTracks] depends on it, so
    it is an association list in insertion order.  An expression vector is a
    plain object with string keys; it is an association list in property
    order.

    State.  [tracks] and [nextId] are module-level variables of the source.
    They are threaded explicitly as a [State]; the clock [performance.now()]
    is read once per call of [assignTracks] and is an argument. *)

From Stdlib Require Import Floats ZArith List String Bool Sorted.
From Stdlib Require Import Permutation Lia.
Import ListNotations.
#[local] Set Warnings "-inexact-float".
#[local] Open Scope Z_scope.

(** * Part I: the program *)

(** ** Plain objects

    An expression vector is an object whose prototype is
    [Object.prototype] and whose properties hold numbers.  The list is its
    own enumerable string-keyed properties, in property order.  [keys] is
    [Object.keys]; [get] finds an own property ([None] when there is none:
    the read [o[k]] then goes on to [Object.prototype]); [set] is the
    assignment [o[k] = v] of a number: an existing own property keeps its
    place and a new one goes last, except that for the name ['__proto__']
    the assignment reaches the setter that [Object.prototype] defines, which
    ignores a value that is not an object, so no property is added. *)

Module Obj.
Section Objects.
Context {V : Type}.

Definition t : Type := list (string * V).

Definition keys (o : t) : list string := map fst o.

Fixpoint get (o : t) (k : string) : option V :=
  match o with
  | [] => None
  | (k', v) :: rest => if String.eqb k' k then Some v else get rest k
  end.

(** The names whose assignment adds a property to an object that lacks it. *)
Definition settable (k : string) : bool := negb (String.eqb k "__proto__").

Fixpoint set (o : t) (k : string) (v : V) : t :=
  match o with
  | [] => if settable k then [(k, v)] else []
  | (k', v') :: rest =>
      if String.eqb k' k then (k', v) :: rest else (k', v') :: set rest k v
  end.

End Objects.
Arguments t : clear implicits.
End Obj.

(** ** The expression smoother ([emaExpressions], app.js lines 116-121)

    The smoother only multiplies, adds and subtracts.  It is written over
    the arithmetic it uses; the program runs it on binary64 numbers. *)

Class Arith (num : Type) : Type := {
  n_add : num -> num -> num;
  n_sub : num -> num -> num;
  n_mul : num -> num -> num;
  n_one : num;
  (** what [undefined] becomes in an arithmetic expression *)
  n_nan : num
}.

(** NaN absorbs the two operations the smoother applies to a property read. *)
Class ArithNaN (num : Type) `{Arith num} : Prop := {
  n_mul_nan : forall a : num, n_mul a n_nan = n_nan;
  n_add_nan : forall b : num, n_add n_nan b = n_nan
}.

Declare Scope num_scope.
Delimit Scope num_scope with num.
Notation "a + b" := (n_add a b) : num_scope.
Notation "a - b" := (n_sub a b) : num_scope.
Notation "a * b" := (n_mul a b) : num_scope.
Notation "1" := n_one : num_scope.

Section Smoother.
Context {num : Type} `{Arith num}.

(** [o[k]] inside an arithmetic expression.  Where the object has no own
    property [k] the read gives [undefined] or, for a name that
    [Object.prototype] defines, a function or an object; arithmetic turns
    each of them into NaN. *)
Definition prop (o : Obj.t num) (k : string) : num :=
  match Obj.get o k with
  | Some v => v
  | None => n_nan
  end.

(** [function emaExpressions(prev, cur, alpha=0.6)].  [prev] is [None] when
    it is falsy ([undefined], [null]).  The default of [alpha] is never
    used: the one caller passes 0.6.
<<
  if (!prev) return cur;
  const out = {};
  for (const k of Object.keys(cur)) out[k] = alpha*prev[k] + (1-alpha)*cur[k];
  return out;
>> *)
Definition emaExpressions (prev : option (Obj.t num)) (cur : Obj.t num) (alpha : num)
  : Obj.t num :=
  match prev with
  | None => cur
  | Some prev =>
      fold_left
        (fun out k => Obj.set out k (alpha * prop prev k + (1 - alpha) * prop cur k)%num)
        (Obj.keys cur) []
  end.

(** One more call with the same current vector, and [n] of them in a row. *)
Definition smoothAgain (alpha : num) (cur : Obj.t num) (prev : Obj.t num) : Obj.t num :=
  emaExpressions (Some prev) cur alpha.

Definition smoothTimes (n : nat) (alpha : num) (cur : Obj.t num) (start : Obj.t num)
  : Obj.t num :=
  Nat.iter n (smoothAgain alpha cur) start.

End Smoother.

(** The engine's arithmetic. *)
#[global] Instance float_arith : Arith float := {|
  n_add := PrimFloat.add;
  n_sub := PrimFloat.sub;
  n_mul := PrimFloat.mul;
  n_one := 1%float;
  n_nan := nan
|}.


(** ** Data of the tracker *)

(** [det.detection.box]: a face box in frame pixels. *)
Module Box.
Record t : Type := { x : float; y : float; width : float; height : float }.
End Box.

(** [{x, y}], as [centerOf] returns it. *)
Module Point.
Record t : Type := { x : float; y : float }.
End Point.

Definition Expressions : Type := Obj.t float.

(** One element of the array the detector returns.  [trackId] is the
    property [assignTracks] adds; [None] is [undefined]. *)
Record Detection : Type := {
  box : Box.t;
  expressions : Expressions;
  trackId : option Z
}.

(** A value of the table: [{cx, cy, lastSeen, exprEMA}]. *)
Record Track : Type := {
  cx : float;
  cy : float;
  lastSeen : float;
  exprEMA : Expressions
}.

(** [tracks = new Map()], in insertion order.  [get] is [Map.get] ([None]
    for [undefined]), [set] is [Map.set] (a key that is present keeps its
    place, a new one goes last) and [alter] is an assignment to the fields
    of the object stored under a key. *)
Module TrackMap.

Definition t : Type := list (Z * Track).

Definition keys (m : t) : list Z := map fst m.

Fixpoint get (m : t) (id : Z) : option Track :=
  match m with
  | [] => None
  | (id', v) :: rest => if id' =? id then Some v else get rest id
  end.

Fixpoint set (m : t) (id : Z) (v : Track) : t :=
  match m with
  | [] => [(id, v)]
  | (id', v') :: rest =>
      if id' =? id then (id', v) :: rest else (id', v') :: set rest id v
  end.

Definition alter (f : Track -> Track) (id : Z) (m : t) : t :=
  map (fun e => if fst e =? id then (fst e, f (snd e)) else e) m.

End TrackMap.

(** The module-level variables [tracks] and [nextId]. *)
Record State : Type := { tracks : TrackMap.t; nextId : Z }.

(** [const tracks = new Map(); let nextId = 1;] *)
Definition init : State := {| tracks := []; nextId := 1 |}.

(** [nextId++] leaves [nextId + 1] in the counter, a binary64 sum.  From 1
    the counter takes the values 1, 2, ..., each one exactly, up to 2^53;
    there [2^53 + 1] is half way between two binary64 numbers and rounds
    back to 2^53, so the counter stays. *)
Definition plusOne (n : Z) : Z := if (n <? 2 ^ 53)%Z then (n + 1)%Z else n.

(** ** Library functions *)

#[local] Open Scope float_scope.

(** What the language leaves to the engine: [Math.hypot(a, b)] is "an
    implementation-approximated value" of the square root of the sum of the
    squares, and engines differ in the last digit.  The model takes the
    function as it is given. *)
Class Engine : Type := { Math_hypot : float -> float -> float }.

(** [Math.max(a, b)]: NaN when an argument is NaN, and [+0] above [-0]. *)
Definition Math_max (a b : float) : float :=
  if is_nan a || is_nan b then nan
  else if a <? b then b
  else if b <? a then a
  else if get_sign a then b else a.

(** ** The tracker (app.js lines 79-114) *)

Section Tracker.
Context {E : Engine}.

(** [function centerOf(box)] *)
Definition centerOf (b : Box.t) : Point.t :=
  {| Point.x := Box.x b + Box.width b / 2;
     Point.y := Box.y b + Box.height b / 2 |}.

(** The body of the inner loop (lines 91-95), on the pair [(bestId, bestD)]:
<<
  if (now - t.lastSeen > 1500) continue; // stale
  const d = Math.hypot(c.x - t.cx, c.y - t.cy);
  if (d < bestD) { bestD = d; bestId = id; }
>> *)
Definition scanStep (now : float) (c : Point.t) (best : option Z * float) (e : Z * Track)
  : option Z * float :=
  if 1500 <? now - lastSeen (snd e) then best
  else
    let d := Math_hypot (Point.x c - cx (snd e)) (Point.y c - cy (snd e)) in
    if d <? snd best then (Some (fst e), d) else best.

(** [let bestId = null, bestD = 99999; for (const [id, t] of tracks.entries()) ...] *)
Definition nearest (now : float) (c : Point.t) (m : TrackMap.t) : option Z * float :=
  fold_left (scanStep now c) m (None, 99999).

(** The test of line 96,
    [bestId != null && bestD < Math.max(det.detection.box.width, det.detection.box.height)]:
    the identity of the track to update, or [None] for the [else] branch. *)
Definition accept (now : float) (st : State) (det : Detection) : option Z :=
  let best := nearest now (centerOf (box det)) (tracks st) in
  match fst best with
  | Some bestId =>
      if snd best <? Math_max (Box.width (box det)) (Box.height (box det))
      then Some bestId else None
  | None => None
  end.

(** What the [then] branch stores in the track (lines 98-101). *)
Definition touched (now : float) (det : Detection) (t : Track) : Track :=
  let c := centerOf (box det) in
  {| cx := Point.x c; cy := Point.y c; lastSeen := now;
     exprEMA := emaExpressions (Some (exprEMA t)) (expressions det) 0.6 |}.

(** What the [else] branch stores under the new identity (line 106). *)
Definition fresh (now : float) (det : Detection) : Track :=
  let c := centerOf (box det) in
  {| cx := Point.x c; cy := Point.y c; lastSeen := now; exprEMA := expressions det |}.

(** [det.trackId = id]. *)
Definition withTrackId (det : Detection) (id : Z) : Detection :=
  {| box := box det; expressions := expressions det; trackId := Some id |}.

(** Lines 97-102, "update existing".  [tracks.get(bestId)] is an entry the
    scan has just visited; its fields are assigned in place. *)
Definition updateExisting (now : float) (st : State) (det : Detection) (bestId : Z)
  : Detection * State :=
  (withTrackId det bestId,
   {| tracks := TrackMap.alter (touched now det) bestId (tracks st);
      nextId := nextId st |}).

(** Lines 104-107, "new track": [const id = nextId++; tracks.set(id, {...})]. *)
Definition newTrack (now : float) (st : State) (det : Detection) : Detection * State :=
  let id := nextId st in
  (withTrackId det id,
   {| tracks := TrackMap.set (tracks st) id (fresh now det);
      nextId := plusOne id |}).

(** The body of the outer loop, for one detection. *)
Definition assignOne (now : float) (st : State) (det : Detection) : Detection * State :=
  match accept now st det with
  | Some bestId => updateExisting now st det bestId
  | None => newTrack now st det
  end.

(** [for (const det of detections) { ... }] (lines 87-109): the detections
    with their [trackId] set, and the state the loop leaves. *)
Fixpoint matchAll (now : float) (st : State) (dets : list Detection)
  : list Detection * State :=
  match dets with
  | [] => ([], st)
  | det :: rest =>
      let r := assignOne now st det in
      let rs := matchAll now (snd r) rest in
      (fst r :: fst rs, snd rs)
  end.

(** Lines 110-113, "cleanup stale":
    [if (now - t.lastSeen > 3000) tracks.delete(id);] for every entry; the
    entries that stay keep their order. *)
Definition cleanup (now : float) (m : TrackMap.t) : TrackMap.t :=
  filter (fun e => negb (3000 <? now - lastSeen (snd e))) m.

(** [function assignTracks(detections)], with [now = performance.now()]. *)
Definition assignTracks (now : float) (st : State) (dets : list Detection)
  : list Detection * State :=
  let r := matchAll now st dets in
  (fst r, {| tracks := cleanup now (tracks (snd r)); nextId := nextId (snd r) |}).

(** A run of frames, each a clock reading and a batch of detections: the
    calls of [assignTracks] made by [loop] (line 259). *)
Fixpoint run (st : State) (frames : list (float * list Detection)) : State :=
  match frames with
  | [] => st
  | (now, dets) :: rest => run (snd (assignTracks now st dets)) rest
  end.

End Tracker.

(** ** The expression a face is drawn with ([drawBoxesAndEmojis]) *)

(** Line 136, for the sidebar summary:
    [det.trackId && tracks.get(det.trackId)?.exprEMA || det.expressions].
    An identity that is [undefined] or 0 is falsy; [?.] turns a missing
    entry into [undefined]; an expression object is truthy. *)
Definition summaryExpressions (m : TrackMap.t) (det : Detection) : Expressions :=
  match trackId det with
  | Some id =>
      if (id =? 0)%Z then expressions det
      else match TrackMap.get m id with
           | Some t => exprEMA t
           | None => expressions det
           end
  | None => expressions det
  end.

(** Line 148, [const id = det.trackId ?? '?']: a number, or the string. *)
Variant Label : Type := IdNumber (id : Z) | IdUnknown.

Definition labelOf (det : Detection) : Label :=
  match trackId det with
  | Some id => IdNumber id
  | None => IdUnknown
  end.

(** Line 149, for the overlay:
    [id && tracks.get(id)?.exprEMA || det.expressions].  The string ['?'] is
    truthy and is no key of the table. *)
Definition overlayExpressions (m : TrackMap.t) (det : Detection) : Expressions :=
  match labelOf det with
  | IdNumber id =>
      if (id =? 0)%Z then expressions det
      else match TrackMap.get m id with
           | Some t => exprEMA t
           | None => expressions det
           end
  | IdUnknown => expressions det
  end.

(** ** The exported record ([serializeDetections], app.js lines 267-275) *)



(** [{x, y, w, h}] of an exported detection. *)
Module Rect.
Record t : Type := { x : float; y : float; w : float; h : float }.
End Rect.

(** [{id, box, expressions}]; [id] is [None] for [null]. *)
Module Dumped.
Record t : Type := { id : option Z; box : Rect.t; expressions : Expressions }.
End Dumped.

(** [{ts, count, detections}]. *)
Module Dump.
Record t : Type := { ts : Z; count : nat; detections : list Dumped.t }.
End Dump.



(** ** Vocabulary of the statements

    Nothing below is code of the program: these are the words the theorems
    are stated with. *)

Section Vocabulary.
Context {E : Engine}.

(** A track takes part in the scan at time [now] (line 92 does not skip it). *)
Definition active (now : float) (t : Track) : bool :=
  negb (1500 <? now - lastSeen t).

(** The distance the scan measures from the centre [c] to a track. *)
Definition dist (c : Point.t) (t : Track) : float :=
  Math_hypot (Point.x c - cx t) (Point.y c - cy t).

(** In the table [pre ++ (id, t) :: post], the track [t] is the nearest
    active one to [c], and the first such in insertion order: it is active,
    its distance is a number, no active track is nearer, and the active
    tracks inserted before it are not at its distance either. *)
Definition firstNearest (now : float) (c : Point.t)
    (pre : TrackMap.t) (t : Track) (post : TrackMap.t) : Prop :=
  active now t = true
  /\ (dist c t =? dist c t) = true
  /\ (forall e, In e pre -> active now (snd e) = true ->
        (dist c (snd e) <? dist c t) = false /\ (dist c (snd e) =? dist c t) = false)
  /\ (forall e, In e post -> active now (snd e) = true ->
        (dist c (snd e) <? dist c t) = false).

(** The states the program is in while the counter has not reached 2^53:
    identities are positive, below [nextId], and the table lists them in
    increasing order. *)
Definition wf (st : State) : Prop :=
  StronglySorted Z.lt (TrackMap.keys (tracks st))
  /\ Forall (fun id => (1 <= id < nextId st)%Z) (TrackMap.keys (tracks st))
  /\ (1 <= nextId st)%Z.

(** The states the program can be in, the counter at 2^53 or not: there
    the last identity handed out can be [nextId] itself. *)
Definition sound (st : State) : Prop :=
  StronglySorted Z.lt (TrackMap.keys (tracks st))
  /\ Forall (fun id => (1 <= id <= nextId st)%Z) (TrackMap.keys (tracks st))
  /\ (1 <= nextId st)%Z.

(** What happens to identities during a run, in order. *)
Variant Event : Type :=
  | Created (id : Z)   (* the [else] branch: a new track *)
  | Matched (id : Z)   (* the [then] branch: an existing track *)
  | Expired (id : Z).  (* the cleanup: [tracks.delete(id)] *)

Definition eventOf (now : float) (st : State) (det : Detection) : Event :=
  match accept now st det with
  | Some bestId => Matched bestId
  | None => Created (nextId st)
  end.

Fixpoint matchLog (now : float) (st : State) (dets : list Detection) : list Event :=
  match dets with
  | [] => []
  | det :: rest => eventOf now st det :: matchLog now (snd (assignOne now st det)) rest
  end.

Definition expired (now : float) (m : TrackMap.t) : list Z :=
  TrackMap.keys (filter (fun e => 3000 <? now - lastSeen (snd e)) m).

Definition frameLog (now : float) (st : State) (dets : list Detection) : list Event :=
  matchLog now st dets ++ map Expired (expired now (tracks (snd (matchAll now st dets)))).

Fixpoint runLog (st : State) (frames : list (float * list Detection)) : list Event :=
  match frames with
  | [] => []
  | (now, dets) :: rest =>
      frameLog now st dets ++ runLog (snd (assignTracks now st dets)) rest
  end.

Definition createdIds (log : list Event) : list Z :=
  flat_map (fun ev => match ev with Created id => [id] | _ => [] end) log.

End Vocabulary.

(** A log is consistent with a set [live] of identities in the table and a
    counter value [lo]: a creation returns [lo], which joins the table, and
    advances the counter; a match names an identity of the table; an
    expiry names an identity of the table, which leaves it. *)
Fixpoint consistent (live : Z -> Prop) (lo : Z) (log : list Event) : Prop :=
  match log with
  | [] => True
  | Created id :: rest =>
      id = lo /\ consistent (fun x => live x \/ x = id) (lo + 1)%Z rest
  | Matched id :: rest => live id /\ consistent live lo rest
  | Expired id :: rest => live id /\ consistent (fun x => live x /\ x <> id) lo rest
  end.

(** The identities in the table after a log, from those before it. *)
Fixpoint liveAfter (live : Z -> Prop) (log : list Event) : Z -> Prop :=
  match log with
  | [] => live
  | Created id :: rest => liveAfter (fun x => live x \/ x = id) rest
  | Matched _ :: rest => liveAfter live rest
  | Expired id :: rest => liveAfter (fun x => live x /\ x <> id) rest
  end.

(** The identities in the table of a state. *)
Definition inTable (st : State) : Z -> Prop :=
  fun id => In id (TrackMap.keys (tracks st)).

(** How many identities a log creates. *)
Definition creations (log : list Event) : Z := Z.of_nat (List.length (createdIds log)).

(** ** Sample inputs

    The frames the examples below run the tracker on. *)

Module Sample.

(** The engine of the examples.  Its [Math.hypot] is the one of V8: the
    magnitudes are divided by the larger one, their squares are added with
    Kahan's compensation, and the square root is scaled back. *)
Definition kahan (acc : float * float) (n : float) : float * float :=
  let summand := n * n - snd acc in
  let preliminary := fst acc + summand in
  (preliminary, (preliminary - fst acc) - summand).

Definition larger (a b : float) : float := if a <? b then b else a.

Definition hypot (a b : float) : float :=
  let max := larger (if is_nan a then 0 else abs a) (if is_nan b then 0 else abs b) in
  if max =? infinity then infinity
  else if is_nan a || is_nan b then nan
  else if max =? 0 then 0
  else sqrt (fst (kahan (kahan (0, 0) (abs a / max)) (abs b / max))) * max.

Definition engine : Engine := {| Math_hypot := hypot |}.
#[local] Existing Instance engine.

#[local] Open Scope string_scope.

Definition face (x y w h : float) (e : Expressions) : Detection :=
  {| box := {| Box.x := x; Box.y := y; Box.width := w; Box.height := h |};
     expressions := e;
     trackId := None |}.

Definition happy : Expressions := [("happy", 0.9); ("neutral", 0.1)].
Definition mixed : Expressions := [("happy", 0.5); ("neutral", 0.5)].

(** The scenario of the design notes: one face, seen at 1000 ms and, a
    little moved, at 1050 ms. *)
Definition first : Detection := face 10 10 40 40 happy.
Definition second : Detection := face 12 11 40 40 mixed.
Definition seenOnce : State := snd (assignTracks 1000 init [first]).
Definition seenTwice : list Detection * State := assignTracks 1050 seenOnce [second].

(** Two faces side by side whose boxes overlap by 30 pixels. *)
Definition left : Detection := face 100 100 80 80 happy.
Definition right : Detection := face 150 100 80 80 mixed.


(** Two small faces 400000 pixels apart, seen at time 0, and then a very
    wide face centred half way between them. *)
Definition west : Detection := face (-1) 0 2 2 happy.
Definition east : Detection := face 399999 0 2 2 happy.
Definition farApart : State := snd (assignTracks 0 init [west; east]).
Definition wide : Detection := face 0 0 400000 2 mixed.
Definition westOnly : State := snd (assignTracks 0 init [west]).

(** Two small faces 200 pixels apart, and a face half way between them. *)
Definition near : Detection := face 199 0 2 2 happy.
Definition twoNear : State := snd (assignTracks 0 init [west; near]).
Definition between : Detection := face 99 0 2 2 mixed.


(** The tests of the design notes: a track at (100, 100) and faces 50
    pixels wide centred at (110, 105), at (300, 300), at (130, 100) and at
    (60, 100). *)
Definition anchor : Detection := face 75 75 50 50 happy.
Definition anchored : State := snd (assignTracks 0 init [anchor]).
Definition nearby : Detection := face 85 80 50 50 mixed.
Definition faraway : Detection := face 275 275 50 50 mixed.
Definition toTheRight : Detection := face 105 75 50 50 mixed.
Definition toTheLeft : Detection := face 35 75 50 50 mixed.

(** A detection that no track is near enough to: its box has no size. *)
Definition ghost : Detection := face 0 0 nan nan happy.

End Sample.

(** ** The rest of the overlay (app.js lines 57, 123-141, 180-201)

    The parts of [drawBoxesAndEmojis] that compute rather than draw: the
    best expression of a vector, the sidebar's count of faces per
    expression, the size of the emoji and the trail of dots. *)

(** [function bestExpression(exprs)] (lines 123-127; the first version of
    the script has the same function):
<<
  let name='neutral', score=0;
  for (const [k,v] of Object.entries(exprs)) if (v > score) { score=v; name=k; }
  return [name, score];
>> *)
Definition bestExpression (exprs : Expressions) : string * float :=
  fold_left (fun best kv => if snd best <? snd kv then kv else best)
            exprs ("neutral"%string, 0).

(** [Math.min(a, b)]: NaN when an argument is NaN, and [-0] below [+0]. *)
Definition Math_min (a b : float) : float :=
  if is_nan a || is_nan b then nan
  else if a <? b then a
  else if b <? a then b
  else if get_sign a then a else b.

(** [const clamp = (v,a,b)=>Math.max(a,Math.min(b,v));] (line 57) *)
Definition clamp (v a b : float) : float := Math_max a (Math_min b v).

(** Line 180, with [emojiSize = Number(sizeRange.value)]:
    [const size = Math.min(emojiSize, Math.max(32, box.width*0.7));] *)
Definition emojiSizeFor (emojiSize : float) (b : Box.t) : float :=
  Math_min emojiSize (Math_max 32 (Box.width b * 0.7)).

(** *** The sidebar summary (lines 134-141)

    [counts] starts as [{}], which inherits the properties of
    [Object.prototype]; for a name among them [counts[name]] is not a
    count, and [(counts[name]||0) + 1] is a string.  A name made of digits
    is an integer key and takes its place before the other keys, not after
    them.  The model counts the other names, the plain ones, and stops
    ([None]) at a name that is not plain. *)
Definition inheritedNames : list string :=
  ["constructor"; "hasOwnProperty"; "isPrototypeOf"; "propertyIsEnumerable";
   "toLocaleString"; "toString"; "valueOf"; "__proto__";
   "__defineGetter__"; "__defineSetter__"; "__lookupGetter__"; "__lookupSetter__"]%string.

Fixpoint allDigits (s : string) : bool :=
  match s with
  | EmptyString => true
  | String c rest =>
      ((48 <=? Ascii.nat_of_ascii c)%nat && (Ascii.nat_of_ascii c <=? 57)%nat)
      && allDigits rest
  end.

Definition plainName (s : string) : bool :=
  negb (existsb (String.eqb s) inheritedNames)
  && negb (negb (String.eqb s "") && allDigits s).

(** [counts[name] = (counts[name]||0) + 1]; a count of 0 is falsy and is
    read as 0. *)
Definition countUp (counts : Obj.t Z) (name : string) : Obj.t Z :=
  Obj.set counts name
    ((match Obj.get counts name with
      | Some c => if (c =? 0)%Z then 0 else c
      | None => 0
      end) + 1)%Z.

Fixpoint tally (counts : Obj.t Z) (names : list string) : option (Obj.t Z) :=
  match names with
  | [] => Some counts
  | name :: rest => if plainName name then tally (countUp counts name) rest else None
  end.

(** The name a face is counted under:
    [const [name] = bestExpression(em)] for the vector of line 136. *)
Definition bestName (m : TrackMap.t) (det : Detection) : string :=
  fst (bestExpression (summaryExpressions m det)).

(** [Object.entries(counts).sort((a,b)=>b[1]-a[1])].  [Array.prototype.sort]
    is stable, so with this comparator the rows come out by decreasing
    count, rows of equal count in the order they had.  [insertRow] puts a
    row in front of the first row whose count is not larger. *)
Fixpoint insertRow (r : string * Z) (rows : list (string * Z)) : list (string * Z) :=
  match rows with
  | [] => [r]
  | r' :: rest =>
      if (snd r' <=? snd r)%Z then r :: r' :: rest else r' :: insertRow r rest
  end.

Definition sortRows (rows : list (string * Z)) : list (string * Z) :=
  fold_right insertRow [] rows.

(** The rows of the sidebar: [....sort(...).slice(0,5)], each shown as
    "emoji name — count". *)
Definition sidebarRows (m : TrackMap.t) (dets : list Detection)
  : option (list (string * Z)) :=
  option_map (fun counts => firstn 5 (sortRows counts)) (tally [] (map (bestName m) dets)).

(** *** The trails (lines 185-189 and 193-201) *)

(** [{x, y, life, id}]; [life] counts frames and is an integer. *)
Module Trail.
Record t : Type := { x : float; y : float; life : Z; id : Label }.
End Trail.

(** Lines 187-188: [trails.push({ x:c.x, y:c.y, life:30, id })]. *)
Definition pushTrail (trails : list Trail.t) (det : Detection) : list Trail.t :=
  trails ++ [{| Trail.x := Point.x (centerOf (box det));
                Trail.y := Point.y (centerOf (box det));
                Trail.life := 30;
                Trail.id := labelOf det |}].

(** [t.life--] *)
Definition older (t : Trail.t) : Trail.t :=
  {| Trail.x := Trail.x t; Trail.y := Trail.y t;
     Trail.life := (Trail.life t - 1)%Z; Trail.id := Trail.id t |}.

(** Lines 195-200, the iterations with index [n - 1] down to 0:
<<
  for (let i=trails.length-1;i>=0;i--) {
    const t = trails[i];
    ...
    t.life--; if (t.life <= 0) trails.splice(i,1);
  }
>>
    [None] is the [TypeError] of [t.life] for an index past the end. *)
Fixpoint ageFrom (n : nat) (trails : list Trail.t) : option (list Trail.t) :=
  match n with
  | O => Some trails
  | S i =>
      match nth_error trails i with
      | None => None
      | Some t =>
          if (Trail.life (older t) <=? 0)%Z
          then ageFrom i (firstn i trails ++ skipn (S i) trails)
          else ageFrom i (firstn i trails ++ older t :: skipn (S i) trails)
      end
  end.

Definition ageTrails (trails : list Trail.t) : option (list Trail.t) :=
  ageFrom (List.length trails) trails.

(** What one call of [drawBoxesAndEmojis] does to [trails]; [checked] is
    [trailsChk.checked]. *)
Definition trailsFrame (checked : bool) (dets : list Detection) (trails : list Trail.t)
  : option (list Trail.t) :=
  if checked then ageTrails (fold_left pushTrail dets trails) else Some trails.

Fixpoint trailsRun (trails : list Trail.t) (frames : list (bool * list Detection))
  : option (list Trail.t) :=
  match frames with
  | [] => Some trails
  | (checked, dets) :: rest =>
      match trailsFrame checked dets trails with
      | Some trails' => trailsRun trails' rest
      | None => None
      end
  end.

(** *** Vocabulary for the statements about them *)

(** A dot after [k] more frames of drawing, and the dots still shown. *)
Definition olderBy (k : Z) (t : Trail.t) : Trail.t :=
  {| Trail.x := Trail.x t; Trail.y := Trail.y t;
     Trail.life := (Trail.life t - k)%Z; Trail.id := Trail.id t |}.

Definition shown (t : Trail.t) : bool := (0 <? Trail.life t)%Z.

Definition dotOf (det : Detection) : Trail.t :=
  {| Trail.x := Point.x (centerOf (box det));
     Trail.y := Point.y (centerOf (box det));
     Trail.life := 30;
     Trail.id := labelOf det |}.

(** The frames of a list in which the trails were drawn. *)
Definition drawnFrames (frames : list (bool * list Detection)) : Z :=
  Z.of_nat (List.length (filter fst frames)).

(** What the trail holds after a run from the empty trail: the dots of
    each drawn frame, as many frames older as were drawn since, those of
    the frames that are too old left out. *)
Fixpoint trailOf (frames : list (bool * list Detection)) : list Trail.t :=
  match frames with
  | [] => []
  | (checked, dets) :: rest =>
      (if checked
       then filter shown (map (olderBy (1 + drawnFrames rest)) (map dotOf dets))
       else [])
      ++ trailOf rest
  end.

(** The sum of the counts of a list of rows. *)
Definition sumCounts (rows : list (string * Z)) : Z :=
  fold_right (fun r acc => (snd r + acc)%Z) 0%Z rows.

(** The count an object of counts holds for a name, 0 when it has none. *)
Definition countOf (counts : Obj.t Z) (name : string) : Z :=
  match Obj.get counts name with
  | Some c => c
  | None => 0%Z
  end.

(** The number of faces of a frame that are counted under a name. *)
Definition facesNamed (m : TrackMap.t) (dets : list Detection) (name : string) : Z :=
  Z.of_nat (count_occ string_dec (map (bestName m) dets) name).

(** A row is not below another one: its count is at least the other's. *)
Definition notBelow (r r' : string * Z) : Prop := (snd r' <= snd r)%Z.

(** * Part II: facts about the program *)

(** ** Comparison and arithmetic of binary64 numbers

    The few facts about numbers the proofs need, derived from the
    specification of the primitive operations.  A float [a] is a number
    (not NaN) when [a =? a]. *)

Module F64.

#[local] Open Scope float_scope.

Ltac cmp_cases :=
  repeat match goal with
  | |- context [Z.compare ?a ?b] => destruct (Z.compare_spec a b)
  | |- context [Pos.compare ?a ?b] => destruct (Pos.compare_spec a b)
  end.

Ltac sf_decide :=
  cbn [SFcompare]; change (Pos.compare_cont Eq) with Pos.compare;
  repeat match goal with s : bool |- _ => destruct s end;
  try discriminate; try reflexivity; try tauto;
  cmp_cases; cbn [CompOpp]; subst;
  try discriminate; try reflexivity; try tauto; try lia.

Lemma SFltb_trans (a b c : spec_float) :
  SFltb a b = true -> SFltb b c = true -> SFltb a c = true.
Proof.
  unfold SFltb.
  destruct a as [sa|sa| |sa ma ea], b as [sb|sb| |sb mb eb], c as [sc|sc| |sc mc ec];
    sf_decide.
Qed.

Lemma SFcompare_total (a b : spec_float) :
  SFeqb a a = true -> SFeqb b b = true ->
  SFltb a b = true \/ SFeqb a b = true \/ SFltb b a = true.
Proof.
  unfold SFltb, SFeqb.
  destruct a as [sa|sa| |sa ma ea], b as [sb|sb| |sb mb eb]; sf_decide.
Qed.

Lemma SFltb_number (a b : spec_float) :
  SFltb a b = true -> SFeqb a a = true /\ SFeqb b b = true.
Proof.
  unfold SFltb, SFeqb.
  destruct a as [sa|sa| |sa ma ea], b as [sb|sb| |sb mb eb]; sf_decide;
    rewrite ?Z.compare_refl, ?Pos.compare_refl; auto.
Qed.

Lemma SFltb_eqb_r (a b c : spec_float) :
  SFeqb b c = true -> SFltb a b = SFltb a c.
Proof.
  unfold SFltb, SFeqb.
  destruct a as [sa|sa| |sa ma ea], b as [sb|sb| |sb mb eb], c as [sc|sc| |sc mc ec];
    sf_decide.
Qed.

Lemma SFltb_irrefl (a : spec_float) : SFltb a a = false.
Proof.
  unfold SFltb. destruct a as [sa|sa| |sa ma ea]; sf_decide.
Qed.

(** [<] is irreflexive and transitive. *)
Lemma ltb_irrefl (a : float) : (a <? a) = false.
Proof. rewrite FloatAxioms.ltb_spec. apply SFltb_irrefl. Qed.

Lemma ltb_trans (a b c : float) :
  (a <? b) = true -> (b <? c) = true -> (a <? c) = true.
Proof. rewrite !FloatAxioms.ltb_spec. apply SFltb_trans. Qed.

(** Two numbers are comparable. *)
Lemma ltb_total (a b : float) :
  (a =? a) = true -> (b =? b) = true ->
  (a <? b) = true \/ (a =? b) = true \/ (b <? a) = true.
Proof. rewrite !FloatAxioms.ltb_spec, !FloatAxioms.eqb_spec. apply SFcompare_total. Qed.

(** Whatever compares below something is a number, and so is the bound. *)
Lemma ltb_number (a b : float) :
  (a <? b) = true -> (a =? a) = true /\ (b =? b) = true.
Proof. rewrite !FloatAxioms.ltb_spec, !FloatAxioms.eqb_spec. apply SFltb_number. Qed.

Lemma ltb_eqb_r (a b c : float) : (b =? c) = true -> (a <? b) = (a <? c).
Proof. rewrite !FloatAxioms.ltb_spec, FloatAxioms.eqb_spec. apply SFltb_eqb_r. Qed.

(** NaN absorbs products and sums. *)
Lemma mul_nan_r (a : float) : a * nan = nan.
Proof.
  apply Prim2SF_inj. rewrite mul_spec.
  change (Prim2SF nan) with S754_nan.
  destruct (Prim2SF a); reflexivity.
Qed.

Lemma add_nan_l (b : float) : nan + b = nan.
Proof.
  apply Prim2SF_inj. rewrite add_spec.
  change (Prim2SF nan) with S754_nan. reflexivity.
Qed.

(** [x - x] is a zero or NaN, so no positive constant lies below it. *)
Lemma sub_diag_class (x : float) :
  Prim2SF (x - x) = S754_nan \/ exists s, Prim2SF (x - x) = S754_zero s.
Proof.
  rewrite sub_spec. unfold SF64sub, SFsub.
  destruct (Prim2SF x) as [s|s| |s m e].
  - right. destruct s; eexists; reflexivity.
  - left. destruct s; reflexivity.
  - left. reflexivity.
  - right. rewrite Z.min_id, Z.sub_diag. cbn. eexists; reflexivity.
Qed.

Lemma sub_diag_not_above (c x : float) :
  (0 <? c) = true -> (c <? x - x) = false.
Proof.
  rewrite !FloatAxioms.ltb_spec. change (Prim2SF 0) with (S754_zero false).
  destruct (sub_diag_class x) as [-> | [s ->]]; unfold SFltb.
  - destruct (Prim2SF c); reflexivity.
  - destruct (Prim2SF c) as [sc|sc| |sc mc ec]; cbn; try destruct sc;
      try reflexivity; try discriminate.
Qed.

End F64.

(** ** Facts about objects *)

Module ObjFacts.
Import Obj.
Section Objects.
Context {V : Type}.
Implicit Types o : Obj.t V.

Lemma get_set_same o k v : settable k = true -> get (set o k v) k = Some v.
Proof.
  intros Hk. induction o as [|[k' v'] o IH]; cbn.
  - rewrite Hk. cbn. now rewrite String.eqb_refl.
  - destruct (String.eqb k' k) eqn:E; cbn; rewrite E; auto.
Qed.

Lemma get_set_other o k k' v : k <> k' -> get (set o k v) k' = get o k'.
Proof.
  intros Hne. induction o as [|[k0 v0] o IH]; cbn.
  - destruct (settable k); [|reflexivity]. cbn.
    destruct (String.eqb_spec k k'); [contradiction | reflexivity].
  - destruct (String.eqb_spec k0 k) as [->|]; cbn.
    + destruct (String.eqb_spec k k'); [contradiction | reflexivity].
    + now rewrite IH.
Qed.

Lemma get_in_keys o k v : get o k = Some v -> In k (keys o).
Proof.
  induction o as [|[k' v'] o IH]; cbn; [discriminate|].
  destruct (String.eqb_spec k' k); auto.
Qed.

Lemma keys_set_notin o k v :
  settable k = true -> ~ In k (keys o) -> keys (set o k v) = keys o ++ [k].
Proof.
  intros Hk. unfold keys. induction o as [|[k' v'] o IH]; cbn.
  - now rewrite Hk.
  - intros Hn. destruct (String.eqb_spec k' k) as [->|Hne]; [tauto|].
    cbn. rewrite IH; tauto.
Qed.

(** An assignment to a name that is not settable, on an object that has no
    such property of its own, changes nothing. *)
Lemma set_unsettable o k v : settable k = false -> ~ In k (keys o) -> set o k v = o.
Proof.
  intros Hk. unfold keys. induction o as [|[k' v'] o IH]; cbn.
  - now rewrite Hk.
  - intros Hn. destruct (String.eqb_spec k' k) as [->|Hne]; [tauto|].
    rewrite IH; tauto.
Qed.

Lemma settable_spec k : settable k = true <-> k <> "__proto__"%string.
Proof.
  unfold settable. destruct (String.eqb_spec k "__proto__"); cbn; split; congruence.
Qed.

End Objects.
End ObjFacts.

(** ** Facts about the smoother *)

#[global] Instance float_arith_nan : ArithNaN float.
Proof. split; [exact F64.mul_nan_r | exact F64.add_nan_l]. Qed.

Section SmootherFacts.
Context {num : Type} `{Arith num}.

Section Loop.
Variable f : string -> num.

Let body := fun (out : Obj.t num) k => Obj.set out k (f k).

Lemma loop_get ks : forall out k,
  Obj.settable k = true ->
  Obj.get (fold_left body ks out) k = if in_dec string_dec k ks then Some (f k) else Obj.get out k.
Proof.
  induction ks as [|k0 ks IH]; intros out k Hk; cbn [fold_left]; [reflexivity|].
  rewrite IH by assumption. destruct (in_dec string_dec k ks) as [Hin|Hn];
    destruct (in_dec string_dec k (k0 :: ks)) as [Hin'|Hn']; cbn in *; try tauto.
  - destruct Hin' as [->|]; [|tauto]. now apply ObjFacts.get_set_same.
  - apply ObjFacts.get_set_other. tauto.
Qed.

Lemma loop_keys ks : forall out,
  NoDup ks -> (forall k, In k ks -> ~ In k (Obj.keys out)) ->
  Obj.keys (fold_left body ks out) = Obj.keys out ++ filter Obj.settable ks.
Proof.
  induction ks as [|k0 ks IH]; intros out Hnd Hdisj; cbn [fold_left filter].
  - now rewrite app_nil_r.
  - inversion Hnd as [|? ? Hk0 Hnd']; subst.
    assert (Hfresh : ~ In k0 (Obj.keys out)) by (apply Hdisj; now left).
    destruct (Obj.settable k0) eqn:Hset.
    + assert (Hs : Obj.keys (body out k0) = Obj.keys out ++ [k0])
        by (now apply ObjFacts.keys_set_notin).
      rewrite IH, Hs, <- app_assoc; [reflexivity | assumption |].
      intros k Hin. rewrite Hs, in_app_iff. cbn.
      intros [Hout|[->|[]]]; [|contradiction].
      apply (Hdisj k); [now right | assumption].
    + assert (Hs : body out k0 = out) by (now apply ObjFacts.set_unsettable).
      rewrite Hs. apply IH; [assumption|].
      intros k Hin. apply Hdisj. now right.
Qed.
End Loop.

(** The result has the keys of [cur] that an assignment can add. *)
Lemma ema_keys prev cur alpha :
  NoDup (Obj.keys cur) ->
  Obj.keys (emaExpressions (Some prev) cur alpha) = filter Obj.settable (Obj.keys cur).
Proof.
  intros Hnd. unfold emaExpressions.
  rewrite loop_keys with (f := fun k => (alpha * prop prev k + (1 - alpha) * prop cur k)%num);
    auto.
Qed.

Lemma ema_get prev cur alpha k c :
  Obj.settable k = true ->
  Obj.get cur k = Some c ->
  Obj.get (emaExpressions (Some prev) cur alpha) k
  = Some (alpha * prop prev k + (1 - alpha) * c)%num.
Proof.
  intros Hk Hc. unfold emaExpressions.
  rewrite loop_get with (f := fun k => (alpha * prop prev k + (1 - alpha) * prop cur k)%num)
    by assumption.
  destruct (in_dec string_dec k (Obj.keys cur)) as [_|Hn].
  - unfold prop at 2. now rewrite Hc.
  - exfalso. apply Hn. eapply ObjFacts.get_in_keys; eauto.
Qed.

(** The result has no property that an assignment cannot add. *)
Lemma ema_unsettable prev cur alpha k :
  NoDup (Obj.keys cur) -> Obj.settable k = false ->
  Obj.get (emaExpressions (Some prev) cur alpha) k = None.
Proof.
  intros Hnd Hk.
  destruct (Obj.get (emaExpressions (Some prev) cur alpha) k) as [v|] eqn:Hget;
    [|reflexivity].
  apply ObjFacts.get_in_keys in Hget. rewrite ema_keys in Hget by assumption.
  apply filter_In in Hget as [_ Hset]. congruence.
Qed.

Lemma smoothTimes_succ n alpha cur start :
  smoothTimes (S n) alpha cur start
  = emaExpressions (Some (smoothTimes n alpha cur start)) cur alpha.
Proof. reflexivity. Qed.

End SmootherFacts.

(** ** Facts about the track table *)

Module TrackMapFacts.
Import TrackMap.
#[local] Open Scope Z_scope.

Lemma keys_app (m1 m2 : t) : keys (m1 ++ m2) = keys m1 ++ keys m2.
Proof. apply map_app. Qed.

Lemma keys_alter f id (m : t) : keys (alter f id m) = keys m.
Proof.
  unfold keys, alter. rewrite map_map. apply map_ext.
  intros [k v]; cbn. destruct (k =? id); reflexivity.
Qed.

Lemma get_alter f id (m : t) id' :
  get (alter f id m) id' = if id' =? id then option_map f (get m id') else get m id'.
Proof.
  unfold alter. induction m as [|[k v] m IH]; cbn.
  - destruct (id' =? id); reflexivity.
  - destruct (Z.eqb_spec k id) as [->|Hk]; cbn.
    + destruct (Z.eqb_spec id id') as [<-|Hne].
      * now rewrite Z.eqb_refl.
      * rewrite IH. reflexivity.
    + destruct (Z.eqb_spec k id') as [<-|Hne].
      * destruct (Z.eqb_spec k id); [contradiction | reflexivity].
      * apply IH.
Qed.

Lemma alter_notin f id (m : t) : ~ In id (keys m) -> alter f id m = m.
Proof.
  unfold alter, keys. induction m as [|[k v] m IH]; cbn; [reflexivity|].
  intros Hn. destruct (Z.eqb_spec k id); [tauto|].
  f_equal. apply IH. tauto.
Qed.

Lemma alter_split f id (pre post : t) v :
  ~ In id (keys pre) -> ~ In id (keys post) ->
  alter f id (pre ++ (id, v) :: post) = pre ++ (id, f v) :: post.
Proof.
  intros Hpre Hpost. unfold alter at 1. rewrite map_app. cbn.
  rewrite Z.eqb_refl. f_equal; [|f_equal]; now apply alter_notin.
Qed.

Lemma set_notin (m : t) id v : ~ In id (keys m) -> set m id v = m ++ [(id, v)].
Proof.
  induction m as [|[k w] m IH]; cbn; [reflexivity|].
  intros Hn. destruct (Z.eqb_spec k id); [tauto|].
  f_equal. apply IH. tauto.
Qed.

Lemma get_in (m : t) id v : get m id = Some v -> In (id, v) m.
Proof.
  induction m as [|[k w] m IH]; cbn; [discriminate|].
  destruct (Z.eqb_spec k id) as [->|]; [intros [= ->]; now left | auto].
Qed.

Lemma get_notin (m : t) id : ~ In id (keys m) -> get m id = None.
Proof.
  induction m as [|[k w] m IH]; cbn; [reflexivity|].
  intros Hn. destruct (Z.eqb_spec k id); [tauto | apply IH; tauto].
Qed.

Lemma in_keys (m : t) id v : In (id, v) m -> In id (keys m).
Proof. intros Hin. apply (in_map fst) in Hin. exact Hin. Qed.

Lemma in_get (m : t) id v : NoDup (keys m) -> In (id, v) m -> get m id = Some v.
Proof.
  induction m as [|[k w] m IH]; cbn; [tauto|].
  intros Hnd [[= -> ->]|Hin].
  - now rewrite Z.eqb_refl.
  - inversion Hnd as [|? ? Hk Hnd']; subst.
    destruct (Z.eqb_spec k id) as [->|]; [|auto].
    exfalso. apply Hk. eapply in_keys; eauto.
Qed.

Lemma get_filter (p : Z * Track -> bool) (m : t) id :
  NoDup (keys m) ->
  get (filter p m) id =
  match get m id with
  | Some v => if p (id, v) then Some v else None
  | None => None
  end.
Proof.
  induction m as [|[k w] m IH]; cbn; [reflexivity|].
  intros Hnd. inversion Hnd as [|? ? Hk Hnd']; subst.
  destruct (Z.eqb_spec k id) as [->|Hne].
  - destruct (p (id, w)) eqn:Hp; cbn.
    + now rewrite Z.eqb_refl.
    + apply get_notin. intros Hin. apply Hk.
      unfold keys in *. apply in_map_iff in Hin as [e [He Hin]].
      apply filter_In in Hin as [Hin _]. apply in_map_iff. eauto.
  - destruct (p (k, w)); cbn; [|auto].
    destruct (Z.eqb_spec k id); [contradiction | auto].
Qed.

Lemma keys_filter_in (p : Z * Track -> bool) (m : t) id :
  In id (keys (filter p m)) -> In id (keys m).
Proof.
  unfold keys. rewrite !in_map_iff. intros [e [He Hin]].
  apply filter_In in Hin as [Hin _]. eauto.
Qed.

Lemma sorted_filter (p : Z * Track -> bool) (m : t) :
  StronglySorted Z.lt (keys m) -> StronglySorted Z.lt (keys (filter p m)).
Proof.
  induction m as [|[k w] m IH]; cbn; [auto|].
  intros Hs. inversion Hs as [|? ? Hs' Hall]; subst.
  destruct (p (k, w)); cbn; [|auto].
  constructor; [auto|].
  apply Forall_forall. intros id Hin.
  apply keys_filter_in in Hin. revert id Hin. now apply Forall_forall.
Qed.

Lemma sorted_NoDup (l : list Z) : StronglySorted Z.lt l -> NoDup l.
Proof.
  induction 1 as [|a l Hs IH Hall]; constructor; [|assumption].
  intros Hin. rewrite Forall_forall in Hall. specialize (Hall _ Hin). lia.
Qed.

Lemma sorted_snoc (l : list Z) a :
  StronglySorted Z.lt l -> Forall (fun x => (x < a)%Z) l -> StronglySorted Z.lt (l ++ [a]).
Proof.
  induction 1 as [|b l Hs IH Hall]; cbn; intros Hlt.
  - constructor; constructor.
  - inversion Hlt; subst. constructor; [auto|].
    apply Forall_app. split; [assumption | constructor; [assumption | constructor]].
Qed.

Lemma sorted_app_lt (l1 l2 : list Z) a b :
  StronglySorted Z.lt (l1 ++ a :: l2) -> In b l2 -> (a < b)%Z.
Proof.
  induction l1 as [|c l1 IH]; cbn; intros Hs Hin.
  - inversion Hs as [|? ? _ Hall]; subst. rewrite Forall_forall in Hall. auto.
  - inversion Hs; subst. auto.
Qed.

Lemma get_set_eq (m : t) id v : get (set m id v) id = Some v.
Proof.
  induction m as [|[k w] m IH]; cbn.
  - now rewrite Z.eqb_refl.
  - destruct (k =? id) eqn:Ek; cbn; rewrite Ek; auto.
Qed.

Lemma get_set_neq (m : t) id id' v : id <> id' -> get (set m id v) id' = get m id'.
Proof.
  intros Hne. induction m as [|[k w] m IH]; cbn.
  - destruct (Z.eqb_spec id id'); [contradiction | reflexivity].
  - destruct (Z.eqb_spec k id) as [->|]; cbn.
    + destruct (Z.eqb_spec id id'); [contradiction | reflexivity].
    + now rewrite IH.
Qed.

Lemma keys_set_present (m : t) id v : In id (keys m) -> keys (set m id v) = keys m.
Proof.
  unfold keys. induction m as [|[k w] m IH]; cbn; [tauto|].
  intros Hin. destruct (Z.eqb_spec k id) as [->|Hne]; [reflexivity|].
  cbn. rewrite IH; [reflexivity|]. destruct Hin; [contradiction | assumption].
Qed.

Lemma length_set (m : t) id v :
  List.length (set m id v)
  = if in_dec Z.eq_dec id (keys m) then List.length m else S (List.length m).
Proof.
  destruct (in_dec Z.eq_dec id (keys m)) as [Hin|Hn].
  - rewrite <- (length_map fst (set m id v)), <- (length_map fst m).
    fold (keys (set m id v)). fold (keys m). now rewrite keys_set_present.
  - rewrite set_notin by assumption. rewrite length_app. cbn. lia.
Qed.

End TrackMapFacts.

(** ** The reachable states *)

Section Invariant.
Context {E : Engine}.
Import TrackMap TrackMapFacts.
#[local] Open Scope Z_scope.

Lemma plusOne_bounds n : n <= plusOne n <= n + 1.
Proof. unfold plusOne. destruct (Z.ltb_spec n (2 ^ 53)); lia. Qed.

Lemma plusOne_below n : plusOne n < 2 ^ 53 -> plusOne n = n + 1.
Proof. unfold plusOne. destruct (Z.ltb_spec n (2 ^ 53)); lia. Qed.

Lemma wf_init : wf init.
Proof. repeat split; cbn; [constructor | constructor | lia]. Qed.

Lemma wf_sound st : wf st -> sound st.
Proof.
  intros (Hs & Hall & Hn). repeat split; [assumption | | assumption].
  eapply Forall_impl; [|exact Hall]. cbn. lia.
Qed.

Lemma sound_NoDup st : sound st -> NoDup (keys (tracks st)).
Proof. intros [Hs _]. now apply sorted_NoDup. Qed.

Lemma sound_within st id : sound st -> In id (keys (tracks st)) -> 1 <= id <= nextId st.
Proof. intros (_ & Hall & _) Hin. rewrite Forall_forall in Hall. auto. Qed.

Lemma wf_NoDup st : wf st -> NoDup (keys (tracks st)).
Proof. intros [Hs _]. now apply sorted_NoDup. Qed.

Lemma wf_below st id : wf st -> In id (keys (tracks st)) -> (1 <= id < nextId st)%Z.
Proof. intros (_ & Hall & _) Hin. rewrite Forall_forall in Hall. auto. Qed.

Lemma wf_fresh st : wf st -> ~ In (nextId st) (keys (tracks st)).
Proof. intros Hwf Hin. apply (wf_below _ _ Hwf) in Hin. lia. Qed.

Lemma sound_updateExisting now st det id :
  sound st -> sound (snd (updateExisting now st det id)).
Proof.
  intros (Hs & Hall & Hn). unfold sound; cbn. now rewrite keys_alter.
Qed.

Lemma newTrack_tracks now st det :
  wf st ->
  tracks (snd (newTrack now st det)) = tracks st ++ [(nextId st, fresh now det)].
Proof. intros Hwf. cbn. apply set_notin. now apply wf_fresh. Qed.

(** At 2^53 a new track takes the place of the one that has the counter's
    value for identity, if there is one. *)
Lemma sound_newTrack now st det : sound st -> sound (snd (newTrack now st det)).
Proof.
  intros (Hs & Hall & Hn). unfold sound. cbn [newTrack snd tracks nextId].
  pose proof (plusOne_bounds (nextId st)) as Hb.
  destruct (in_dec Z.eq_dec (nextId st) (keys (tracks st))) as [Hin|Hnew].
  - rewrite keys_set_present by assumption.
    repeat split; [assumption | | lia].
    eapply Forall_impl; [|exact Hall]. cbn. lia.
  - rewrite set_notin, keys_app by assumption. cbn [keys map fst].
    assert (Hlt : Forall (fun x => x < nextId st) (keys (tracks st))).
    { rewrite Forall_forall in *. intros x Hx. specialize (Hall x Hx).
      assert (x <> nextId st) by (intros ->; contradiction). lia. }
    repeat split; [now apply sorted_snoc | | lia].
    apply Forall_app. split.
    + eapply Forall_impl; [|exact Hall]. cbn. lia.
    + constructor; [lia | constructor].
Qed.

Lemma sound_assignOne now st det : sound st -> sound (snd (assignOne now st det)).
Proof.
  intros Hs. unfold assignOne.
  destruct (accept now st det); [now apply sound_updateExisting | now apply sound_newTrack].
Qed.

Lemma sound_matchAll now dets : forall st, sound st -> sound (snd (matchAll now st dets)).
Proof.
  induction dets as [|det dets IH]; intros st Hs; cbn; [assumption|].
  apply IH. now apply sound_assignOne.
Qed.

Lemma sound_assignTracks now st dets : sound st -> sound (snd (assignTracks now st dets)).
Proof.
  intros Hsound. apply (sound_matchAll now dets) in Hsound.
  destruct Hsound as (Hs & Hall & Hn). unfold sound, assignTracks, cleanup; cbn.
  repeat split; [now apply sorted_filter | | assumption].
  apply Forall_forall. intros id Hin. apply keys_filter_in in Hin.
  rewrite Forall_forall in Hall. auto.
Qed.

Lemma sound_run frames : forall st, sound st -> sound (run st frames).
Proof.
  induction frames as [|[now dets] frames IH]; intros st Hs; cbn; [assumption|].
  apply IH. now apply sound_assignTracks.
Qed.

(** The counter never goes back, and a detection advances it by one at
    most. *)
Lemma assignOne_counter now st det :
  nextId st <= nextId (snd (assignOne now st det)) <= nextId st + 1.
Proof.
  unfold assignOne. destruct (accept now st det); cbn; [lia | apply plusOne_bounds].
Qed.

Lemma matchAll_counter now dets : forall st,
  nextId st <= nextId (snd (matchAll now st dets))
  <= nextId st + Z.of_nat (List.length dets).
Proof.
  induction dets as [|det dets IH]; intros st; cbn [matchAll snd List.length]; [lia|].
  pose proof (assignOne_counter now st det). specialize (IH (snd (assignOne now st det))).
  lia.
Qed.

Lemma run_counter frames : forall st, nextId st <= nextId (run st frames).
Proof.
  induction frames as [|[now dets] frames IH]; intros st; cbn [run]; [lia|].
  specialize (IH (snd (assignTracks now st dets))).
  pose proof (matchAll_counter now dets st).
  change (nextId (snd (assignTracks now st dets)))
    with (nextId (snd (matchAll now st dets))) in IH. lia.
Qed.

(** Below 2^53 the identities of the table stay below the counter. *)
Lemma wf_updateExisting now st det id : wf st -> wf (snd (updateExisting now st det id)).
Proof.
  intros (Hs & Hall & Hn). unfold wf; cbn. now rewrite keys_alter.
Qed.

Lemma wf_newTrack now st det :
  wf st -> nextId (snd (newTrack now st det)) < 2 ^ 53 -> wf (snd (newTrack now st det)).
Proof.
  intros Hwf Hlt. pose proof (newTrack_tracks now st det Hwf) as Ht.
  destruct Hwf as (Hs & Hall & Hn). unfold wf. rewrite Ht.
  cbn [nextId newTrack snd] in *. apply plusOne_below in Hlt. rewrite Hlt.
  rewrite keys_app. cbn. repeat split; [| |lia].
  - apply sorted_snoc; [assumption|].
    eapply Forall_impl; [|exact Hall]. cbn. lia.
  - apply Forall_app. split.
    + eapply Forall_impl; [|exact Hall]. cbn. lia.
    + constructor; [lia | constructor].
Qed.

Lemma wf_assignOne now st det :
  wf st -> nextId (snd (assignOne now st det)) < 2 ^ 53 -> wf (snd (assignOne now st det)).
Proof.
  unfold assignOne.
  destruct (accept now st det); intros Hwf Hlt;
    [now apply wf_updateExisting | now apply wf_newTrack].
Qed.

Lemma wf_matchAll now dets : forall st,
  wf st -> nextId (snd (matchAll now st dets)) < 2 ^ 53 -> wf (snd (matchAll now st dets)).
Proof.
  induction dets as [|det dets IH]; intros st Hwf Hlt; cbn [matchAll snd] in *; [assumption|].
  apply IH; [|assumption]. apply wf_assignOne; [assumption|].
  pose proof (matchAll_counter now dets (snd (assignOne now st det))). lia.
Qed.

Lemma wf_assignTracks now st dets :
  wf st -> nextId (snd (assignTracks now st dets)) < 2 ^ 53 ->
  wf (snd (assignTracks now st dets)).
Proof.
  intros Hwf Hlt. apply (wf_matchAll now dets) in Hwf; [|exact Hlt].
  destruct Hwf as (Hs & Hall & Hn). unfold wf, assignTracks, cleanup; cbn.
  repeat split; [now apply sorted_filter | | assumption].
  apply Forall_forall. intros id Hin. apply keys_filter_in in Hin.
  rewrite Forall_forall in Hall. auto.
Qed.

Lemma wf_run frames : forall st,
  wf st -> nextId (run st frames) < 2 ^ 53 -> wf (run st frames).
Proof.
  induction frames as [|[now dets] frames IH]; intros st Hwf Hlt; cbn [run] in *;
    [assumption|].
  apply IH; [|assumption]. apply wf_assignTracks; [assumption|].
  pose proof (run_counter frames (snd (assignTracks now st dets))). lia.
Qed.

End Invariant.

(** The invariant of a given state, by evaluation. *)
Ltac wf_eval :=
  unfold wf; repeat split;
  [ vm_compute; repeat constructor
  | vm_compute; repeat constructor; discriminate
  | vm_compute; discriminate ].

(** ** The scan for the nearest active track *)

Section Scan.
Context {E : Engine}.
Variables (now : float) (c : Point.t).
#[local] Open Scope float_scope.

Lemma scanStep_unfold best e :
  scanStep now c best e =
  if active now (snd e)
  then if dist c (snd e) <? snd best then (Some (fst e), dist c (snd e)) else best
  else best.
Proof. unfold scanStep, active, dist. destruct (1500 <? _); reflexivity. Qed.

Lemma nearest_app pre post :
  nearest now c (pre ++ post) = fold_left (scanStep now c) post (nearest now c pre).
Proof. unfold nearest. apply fold_left_app. Qed.

(** After any prefix of the table the scan holds either its initial pair
    or an active track of the prefix with its distance, which is below
    99999; and no active track of the prefix is nearer than what it holds. *)
Lemma nearest_inv m :
  ((fst (nearest now c m) = None /\ snd (nearest now c m) = 99999)
   \/ (exists e, In e m /\ fst (nearest now c m) = Some (fst e)
                 /\ active now (snd e) = true
                 /\ snd (nearest now c m) = dist c (snd e)
                 /\ (snd (nearest now c m) <? 99999) = true))
  /\ (forall e, In e m -> active now (snd e) = true ->
        (dist c (snd e) <? snd (nearest now c m)) = false).
Proof.
  induction m as [|e m [IHbest IHmin]] using rev_ind.
  - split; [left; split; reflexivity | intros e []].
  - rewrite nearest_app. cbn [fold_left]. rewrite scanStep_unfold.
    set (best := nearest now c m) in *.
    assert (Hkeep :
      (fst best = None /\ snd best = 99999) \/
      (exists e0, In e0 (m ++ [e]) /\ fst best = Some (fst e0)
                  /\ active now (snd e0) = true /\ snd best = dist c (snd e0)
                  /\ (snd best <? 99999) = true)).
    { destruct IHbest as [?|(e0 & Hin & ?)]; [now left | right].
      exists e0. split; [apply in_or_app; now left | assumption]. }
    destruct (active now (snd e)) eqn:Hact.
    + destruct (dist c (snd e) <? snd best) eqn:Hlt; cbn [fst snd].
      * split.
        -- right. exists e. repeat split; auto.
           ++ apply in_or_app; right; now left.
           ++ destruct IHbest as [[_ Hd]|(e0 & _ & _ & _ & _ & Hb)].
              ** now rewrite <- Hd.
              ** eapply F64.ltb_trans; eauto.
        -- intros e' Hin Ha. apply in_app_or in Hin as [Hin|[<-|[]]].
           ++ destruct (dist c (snd e') <? dist c (snd e)) eqn:Hlt'; [|reflexivity].
              rewrite <- (IHmin e' Hin Ha). symmetry. eapply F64.ltb_trans; eauto.
           ++ apply F64.ltb_irrefl.
      * split; [exact Hkeep|].
        intros e' Hin Ha. apply in_app_or in Hin as [Hin|[<-|[]]]; auto.
    + split; [exact Hkeep|].
      intros e' Hin Ha. apply in_app_or in Hin as [Hin|[<-|[]]]; [auto | congruence].
Qed.

(** Tracks that are stale or not nearer leave the scan's pair as it is. *)
Lemma scan_stable post best :
  (forall e, In e post -> active now (snd e) = true ->
     (dist c (snd e) <? snd best) = false) ->
  fold_left (scanStep now c) post best = best.
Proof.
  induction post as [|e post IH]; intros Hpost; cbn [fold_left]; [reflexivity|].
  rewrite scanStep_unfold.
  destruct (active now (snd e)) eqn:Hact.
  - rewrite (Hpost e); [|now left|assumption]. apply IH. intros; apply Hpost; auto. now right.
  - apply IH. intros; apply Hpost; auto. now right.
Qed.

(** The scan returns the first nearest active track when that track is
    nearer than 99999. *)
Lemma nearest_first pre id t post :
  firstNearest now c pre t post ->
  (dist c t <? 99999) = true ->
  nearest now c (pre ++ (id, t) :: post) = (Some id, dist c t).
Proof.
  intros (Hact & Hnum & Hpre & Hpost) Hlt.
  rewrite nearest_app. cbn [fold_left]. rewrite scanStep_unfold. cbn [fst snd].
  rewrite Hact.
  assert (Hbelow : (dist c t <? snd (nearest now c pre)) = true).
  { destruct (nearest_inv pre) as [[[_ Hd]|(e & Hin & _ & Ha & Hd & Hb)] _].
    - now rewrite Hd.
    - rewrite Hd in *. destruct (Hpre e Hin Ha) as [Hnlt Hneq].
      destruct (F64.ltb_number _ _ Hb) as [Hnume _].
      destruct (F64.ltb_total _ _ Hnume Hnum) as [H|[H|H]]; congruence. }
  rewrite Hbelow. apply scan_stable. exact Hpost.
Qed.

(** The scan returns nothing when no active track is nearer than 99999. *)
Lemma nearest_nothing m :
  (forall e, In e m -> active now (snd e) = true -> (dist c (snd e) <? 99999) = false) ->
  nearest now c m = (None, 99999).
Proof. intros Hm. unfold nearest. now apply scan_stable. Qed.

(** When the first nearest active track is not nearer than 99999, no active
    track is. *)
Lemma nearest_far pre id t post :
  firstNearest now c pre t post ->
  (dist c t <? 99999) = false ->
  forall e, In e (pre ++ (id, t) :: post) -> active now (snd e) = true ->
    (dist c (snd e) <? 99999) = false.
Proof.
  intros (Hact & Hnum & Hpre & Hpost) Hfar e Hin Ha.
  destruct (dist c (snd e) <? 99999) eqn:He; [exfalso|reflexivity].
  assert (Hnot : (dist c (snd e) <? dist c t) = false).
  { apply in_app_or in Hin as [Hin|[<-|Hin]].
    - now destruct (Hpre e Hin Ha).
    - apply F64.ltb_irrefl.
    - now apply Hpost. }
  destruct (F64.ltb_total (dist c t) 99999 Hnum eq_refl) as [H|[H|H]].
  - congruence.
  - rewrite (F64.ltb_eqb_r _ _ _ H) in Hnot. congruence.
  - rewrite (F64.ltb_trans _ _ _ He H) in Hnot. discriminate.
Qed.

End Scan.

(** The identity the matcher accepts is that of an active track of the
    table, first nearest to the detection. *)
Lemma accept_in {E : Engine} now st det id :
  accept now st det = Some id ->
  exists t, In (id, t) (tracks st) /\ active now t = true.
Proof.
  unfold accept.
  destruct (nearest_inv now (centerOf (box det)) (tracks st))
    as [[[Hn _]|([id' t] & Hin & Hb & Ha & _)] _].
  - now rewrite Hn.
  - rewrite Hb. cbn in *.
    destruct (_ <? _)%float; [|discriminate]. intros [= <-]. eauto.
Qed.

(** ** One detection, and one frame *)

Section Steps.
Context {E : Engine}.
Import TrackMap TrackMapFacts.
#[local] Open Scope Z_scope.

(** The detection comes back with an identity that is in the table, on a
    track last seen [now]. *)
Lemma assignOne_tracked now st det :
  sound st ->
  exists id t,
    trackId (fst (assignOne now st det)) = Some id
    /\ get (tracks (snd (assignOne now st det))) id = Some t
    /\ lastSeen t = now.
Proof.
  intros Hs. unfold assignOne.
  destruct (accept now st det) as [bestId|] eqn:Hacc.
  - destruct (accept_in _ _ _ _ Hacc) as (t & Hin & _).
    exists bestId, (touched now det t). cbn. repeat split.
    rewrite get_alter, Z.eqb_refl, (in_get _ _ _ (sound_NoDup _ Hs) Hin). reflexivity.
  - exists (nextId st), (fresh now det). repeat split.
    cbn. apply get_set_eq.
Qed.

(** A track last seen [now] is still in the table, last seen [now], after
    one more detection. *)
Lemma assignOne_keeps_seen now st det id t :
  get (tracks st) id = Some t -> lastSeen t = now ->
  exists t', get (tracks (snd (assignOne now st det))) id = Some t' /\ lastSeen t' = now.
Proof.
  intros Hget Hseen. unfold assignOne.
  destruct (accept now st det) as [bestId|].
  - cbn. rewrite get_alter, Hget.
    destruct (id =? bestId); cbn; eauto.
  - cbn. destruct (Z.eq_dec (nextId st) id) as [->|Hne].
    + rewrite get_set_eq. eexists; split; reflexivity.
    + rewrite get_set_neq by assumption. eauto.
Qed.

Lemma matchAll_keeps_seen now dets : forall st id t,
  get (tracks st) id = Some t -> lastSeen t = now ->
  exists t', get (tracks (snd (matchAll now st dets))) id = Some t' /\ lastSeen t' = now.
Proof.
  induction dets as [|det dets IH]; intros st id t Hget Hseen; cbn; [eauto|].
  destruct (assignOne_keeps_seen now st det id t Hget Hseen) as (t' & Hget' & Hseen').
  eapply IH; eauto.
Qed.

(** Every detection of a frame leaves the loop with an identity that is in
    the table, on a track last seen [now]. *)
Lemma matchAll_tracked now dets : forall st,
  sound st ->
  Forall (fun d => exists id t,
            trackId d = Some id
            /\ get (tracks (snd (matchAll now st dets))) id = Some t
            /\ lastSeen t = now)
         (fst (matchAll now st dets)).
Proof.
  induction dets as [|det dets IH]; intros st Hs; cbn; constructor.
  - destruct (assignOne_tracked now st det Hs) as (id & t & Hid & Hget & Hseen).
    destruct (matchAll_keeps_seen now dets _ id t Hget Hseen) as (t' & Hget' & Hseen').
    exists id, t'. auto.
  - apply IH. now apply sound_assignOne.
Qed.



(** The cleanup keeps exactly the tracks that are not older than 3000. *)
Lemma cleanup_get now m id :
  NoDup (keys m) ->
  get (cleanup now m) id =
  match get m id with
  | Some t => if (3000 <? now - lastSeen t)%float then None else Some t
  | None => None
  end.
Proof.
  intros Hnd. unfold cleanup. rewrite get_filter by assumption.
  destruct (get m id) as [t|]; [|reflexivity]. cbn.
  destruct (3000 <? now - lastSeen t)%float; reflexivity.
Qed.





End Steps.

(** ** The log of a run *)

Section Log.
Context {E : Engine}.
Import TrackMap TrackMapFacts.
#[local] Open Scope Z_scope.

Lemma createdIds_app l1 l2 : createdIds (l1 ++ l2) = createdIds l1 ++ createdIds l2.
Proof. apply flat_map_app. Qed.

Lemma creations_app l1 l2 : creations (l1 ++ l2) = creations l1 + creations l2.
Proof. unfold creations. rewrite createdIds_app, length_app. lia. Qed.

Lemma creations_created id log : creations (Created id :: log) = 1 + creations log.
Proof.
  unfold creations. change (createdIds (Created id :: log)) with (id :: createdIds log).
  cbn [List.length]. lia.
Qed.

Lemma createdIds_expired ids : createdIds (map Expired ids) = [].
Proof. induction ids; cbn; auto. Qed.

Lemma liveAfter_ext log : forall live live',
  (forall x, live x <-> live' x) ->
  forall x, liveAfter live log x <-> liveAfter live' log x.
Proof.
  induction log as [|[id|id|id] log IH]; intros live live' Hext; cbn [liveAfter].
  - assumption.
  - apply IH. intros x. specialize (Hext x). tauto.
  - now apply IH.
  - apply IH. intros x. specialize (Hext x). tauto.
Qed.

Lemma consistent_ext log : forall live live' lo,
  (forall x, live x <-> live' x) ->
  consistent live lo log -> consistent live' lo log.
Proof.
  induction log as [|[id|id|id] log IH]; intros live live' lo Hext; cbn [consistent].
  - tauto.
  - intros [Hid Hrest]. split; [assumption|].
    eapply IH; [|exact Hrest]. intros x. specialize (Hext x). tauto.
  - intros [Hid Hrest]. split; [now apply Hext|]. eapply IH; eauto.
  - intros [Hid Hrest]. split; [now apply Hext|].
    eapply IH; [|exact Hrest]. intros x. specialize (Hext x). tauto.
Qed.

Lemma liveAfter_app l1 : forall live l2,
  liveAfter live (l1 ++ l2) = liveAfter (liveAfter live l1) l2.
Proof.
  induction l1 as [|[id|id|id] l1 IH]; intros live l2; cbn [app liveAfter]; auto.
Qed.

Lemma consistent_app l1 : forall live lo l2,
  consistent live lo (l1 ++ l2) <->
  consistent live lo l1 /\ consistent (liveAfter live l1) (lo + creations l1) l2.
Proof.
  induction l1 as [|[id|id|id] l1 IH]; intros live lo l2;
    cbn [app consistent liveAfter].
  - unfold creations; cbn. rewrite Z.add_0_r. tauto.
  - rewrite IH, creations_created, Z.add_assoc. tauto.
  - rewrite IH. change (creations (Matched id :: l1)) with (creations l1). tauto.
  - rewrite IH. change (creations (Expired id :: l1)) with (creations l1). tauto.
Qed.

(** The identities in the table stay below the counter. *)
Lemma consistent_below log : forall live lo,
  consistent live lo log ->
  (forall x, live x -> x < lo) ->
  forall x, liveAfter live log x -> x < lo + creations log.
Proof.
  induction log as [|[id|id|id] log IH]; intros live lo; cbn [consistent liveAfter].
  - intros _ Hlive x Hx. unfold creations; cbn. specialize (Hlive x Hx). lia.
  - intros [-> Hrest] Hlive x Hx.
    rewrite creations_created, Z.add_assoc. apply (IH _ _ Hrest); [|assumption].
    intros y [Hy| ->]; [specialize (Hlive y Hy)|]; lia.
  - intros [_ Hrest] Hlive x Hx. apply (IH _ _ Hrest Hlive x Hx).
  - intros [_ Hrest] Hlive x Hx. apply (IH _ _ Hrest); [|assumption].
    intros y [Hy _]. auto.
Qed.

(** The identities a consistent log creates are the counter's successive
    values. *)
Lemma consistent_created log : forall live lo,
  consistent live lo log ->
  Forall (fun id => lo <= id) (createdIds log) /\ StronglySorted Z.lt (createdIds log).
Proof.
  induction log as [|[id|id|id] log IH]; intros live lo;
    cbn [consistent createdIds flat_map app].
  - split; constructor.
  - intros [-> Hrest]. destruct (IH _ _ Hrest) as [Hge Hsorted].
    split; constructor; auto; try lia.
    + eapply Forall_impl; [|exact Hge]. cbn. lia.
    + eapply Forall_impl; [|exact Hge]. cbn. lia.
  - intros [_ Hrest]. now apply (IH _ _ Hrest).
  - intros [_ Hrest]. now apply (IH _ _ Hrest).
Qed.

(** An identity below the counter that is not in the table is neither
    created nor matched again. *)
Lemma consistent_dead log : forall live lo id,
  consistent live lo log ->
  ~ live id -> id < lo ->
  ~ In (Created id) log /\ ~ In (Matched id) log.
Proof.
  induction log as [|[id'|id'|id'] log IH]; intros live lo id; cbn [consistent In].
  - tauto.
  - intros [-> Hrest] Hdead Hlt.
    destruct (IH _ _ id Hrest) as [Hc Hm]; [intros [?| ->]; [auto | lia] | lia |].
    split; intros [[= Heq]|Hin]; auto; lia.
  - intros [Hlive Hrest] Hdead Hlt.
    destruct (IH _ _ id Hrest Hdead Hlt) as [Hc Hm].
    split; intros [[= Heq]|Hin]; auto. congruence.
  - intros [_ Hrest] Hdead Hlt.
    destruct (IH _ _ id Hrest) as [Hc Hm]; [tauto | assumption |].
    split; intros [[= Heq]|Hin]; auto.
Qed.

(** An identity that expires in a consistent log is neither created nor
    matched later. *)
Lemma consistent_expired live lo l1 id l2 :
  consistent live lo (l1 ++ Expired id :: l2) ->
  (forall x, live x -> x < lo) ->
  ~ In (Created id) l2 /\ ~ In (Matched id) l2.
Proof.
  rewrite consistent_app. cbn [consistent]. intros (Hl1 & Hid & Hrest) Hlive.
  eapply consistent_dead; [exact Hrest | tauto |].
  eapply consistent_below; eauto.
Qed.

Lemma eventOf_consistent now st det :
  wf st -> nextId (snd (assignOne now st det)) < 2 ^ 53 ->
  consistent (inTable st) (nextId st) [eventOf now st det]
  /\ (forall x, liveAfter (inTable st) [eventOf now st det] x
                <-> inTable (snd (assignOne now st det)) x)
  /\ nextId (snd (assignOne now st det)) = nextId st + creations [eventOf now st det].
Proof.
  intros Hwf. unfold eventOf, assignOne, inTable.
  destruct (accept now st det) as [bestId|] eqn:Hacc; intros Hlt.
  - destruct (accept_in _ _ _ _ Hacc) as (t & Hin & _).
    apply in_keys in Hin.
    cbn. rewrite keys_alter. unfold creations; cbn. repeat split; auto; lia.
  - rewrite (newTrack_tracks _ _ _ Hwf), keys_app.
    cbn [newTrack snd nextId] in *. apply plusOne_below in Hlt. rewrite Hlt.
    cbn. unfold creations; cbn. repeat split; auto; try lia.
    + intros [?| ->]; apply in_or_app; cbn; auto.
    + intros Hin. apply in_app_or in Hin as [?|[<-|[]]]; auto.
Qed.

Lemma matchLog_consistent now dets : forall st,
  wf st -> nextId (snd (matchAll now st dets)) < 2 ^ 53 ->
  consistent (inTable st) (nextId st) (matchLog now st dets)
  /\ (forall x, liveAfter (inTable st) (matchLog now st dets) x
                <-> inTable (snd (matchAll now st dets)) x)
  /\ nextId (snd (matchAll now st dets)) = nextId st + creations (matchLog now st dets).
Proof.
  induction dets as [|det dets IH]; intros st Hwf Hlt;
    cbn [matchLog matchAll snd] in *.
  - unfold creations; cbn. repeat split; auto; lia.
  - assert (Hlt1 : nextId (snd (assignOne now st det)) < 2 ^ 53).
    { pose proof (matchAll_counter now dets (snd (assignOne now st det))). lia. }
    destruct (eventOf_consistent now st det Hwf Hlt1) as (Hev & Hlive & Hnext).
    destruct (IH _ (wf_assignOne now st det Hwf Hlt1) Hlt) as (Hrest & Hlive' & Hnext').
    change (eventOf now st det :: matchLog now (snd (assignOne now st det)) dets)
      with ([eventOf now st det] ++ matchLog now (snd (assignOne now st det)) dets).
    rewrite consistent_app, creations_app, liveAfter_app, <- Hnext.
    split; [split; [assumption|] | split; [|lia]].
    + eapply consistent_ext; [|exact Hrest]. intros x. symmetry. apply Hlive.
    + intros x. rewrite <- Hlive'. apply liveAfter_ext. exact Hlive.
Qed.

Lemma expired_consistent ids : forall live lo,
  NoDup ids -> (forall x, In x ids -> live x) ->
  consistent live lo (map Expired ids)
  /\ (forall x, liveAfter live (map Expired ids) x <-> live x /\ ~ In x ids).
Proof.
  induction ids as [|id ids IH]; intros live lo Hnd Hlive; cbn [map consistent liveAfter].
  - split; [exact I | cbn; tauto].
  - inversion Hnd as [|? ? Hid Hnd']; subst.
    destruct (IH (fun x => live x /\ x <> id) lo Hnd') as [Hc Hl].
    { intros x Hx. split; [apply Hlive; now right | intros ->; contradiction]. }
    split; [split; [apply Hlive; now left | exact Hc]|].
    intros x. rewrite Hl. cbn. intuition.
Qed.

(** The cleanup removes from the table exactly the identities it expires. *)
Lemma cleanup_keys now m x :
  NoDup (keys m) ->
  In x (keys (cleanup now m)) <-> In x (keys m) /\ ~ In x (expired now m).
Proof.
  intros Hnd. unfold cleanup, expired, keys. rewrite !in_map_iff. split.
  - intros ([id t] & <- & Hin). apply filter_In in Hin as [Hin Hkeep].
    split; [exists (id, t); auto|].
    intros ([id' t'] & Heq & Hin'). cbn in Heq; subst id'.
    apply filter_In in Hin' as [Hin' Hold]. cbn in *.
    apply (in_get _ _ _ Hnd) in Hin. apply (in_get _ _ _ Hnd) in Hin'.
    assert (t' = t) by congruence. subst t'.
    rewrite Hold in Hkeep. discriminate.
  - intros [([id t] & <- & Hin) Hnot]. exists (id, t). split; [reflexivity|].
    apply filter_In. split; [assumption|].
    destruct (3000 <? now - lastSeen (snd (id, t)))%float eqn:Hold; [|reflexivity].
    exfalso. apply Hnot. exists (id, t). split; [reflexivity|].
    apply filter_In. auto.
Qed.

Lemma frameLog_consistent now st dets :
  wf st -> nextId (snd (assignTracks now st dets)) < 2 ^ 53 ->
  consistent (inTable st) (nextId st) (frameLog now st dets)
  /\ (forall x, liveAfter (inTable st) (frameLog now st dets) x
                <-> inTable (snd (assignTracks now st dets)) x)
  /\ nextId (snd (assignTracks now st dets)) = nextId st + creations (frameLog now st dets).
Proof.
  intros Hwf Hlt. unfold frameLog.
  destruct (matchLog_consistent now dets st Hwf Hlt) as (Hlog & Hlive & Hnext).
  pose proof (wf_matchAll now dets st Hwf Hlt) as Hwf1.
  pose proof (wf_NoDup _ Hwf1) as Hnd.
  set (st1 := snd (matchAll now st dets)) in *.
  destruct (expired_consistent (expired now (tracks st1)) (inTable st1) (nextId st1))
    as [Hexp Hlive'].
  { apply sorted_NoDup. unfold expired. apply sorted_filter. now destruct Hwf1. }
  { intros x Hx. unfold expired in Hx. apply keys_filter_in in Hx. exact Hx. }
  rewrite consistent_app, creations_app, liveAfter_app, <- Hnext.
  unfold creations at 2. rewrite createdIds_expired. cbn [List.length Z.of_nat].
  split; [split; [assumption|] | split].
  - eapply consistent_ext; [|exact Hexp]. intros x. symmetry. apply Hlive.
  - intros x. rewrite (liveAfter_ext _ _ _ Hlive x), (Hlive' x).
    unfold inTable. cbn [assignTracks snd tracks]. fold st1.
    symmetry. now apply cleanup_keys.
  - change (nextId (snd (assignTracks now st dets))) with (nextId st1). lia.
Qed.

Lemma runLog_consistent frames : forall st,
  wf st -> nextId (run st frames) < 2 ^ 53 ->
  consistent (inTable st) (nextId st) (runLog st frames).
Proof.
  induction frames as [|[now dets] frames IH]; intros st Hwf Hlt; cbn [runLog run] in *;
    [exact I|].
  assert (Hlt1 : nextId (snd (assignTracks now st dets)) < 2 ^ 53).
  { pose proof (run_counter frames (snd (assignTracks now st dets))). lia. }
  destruct (frameLog_consistent now st dets Hwf Hlt1) as (Hframe & Hlive & Hnext).
  rewrite consistent_app, <- Hnext. split; [assumption|].
  eapply consistent_ext; [|apply IH; [now apply wf_assignTracks | assumption]].
  intros x. symmetry. apply Hlive.
Qed.

(** The log of a run in two parts. *)
Lemma runLog_app l1 : forall st l2,
  runLog st (l1 ++ l2) = runLog st l1 ++ runLog (run st l1) l2.
Proof.
  induction l1 as [|[now dets] l1 IH]; intros st l2; cbn [app runLog run]; [reflexivity|].
  now rewrite IH, app_assoc.
Qed.

End Log.

(** ** More about binary64 numbers: [<=], [Math.max] and [Math.min] *)

Module F64Order.

#[local] Open Scope float_scope.

Lemma SFleb_ltb_eqb (a b : spec_float) : SFleb a b = SFltb a b || SFeqb a b.
Proof.
  unfold SFleb, SFltb, SFeqb.
  destruct (SFcompare a b) as [[ | | ]|]; reflexivity.
Qed.

Lemma SFeqb_sym (a b : spec_float) : SFeqb a b = SFeqb b a.
Proof.
  unfold SFeqb.
  destruct a as [sa|sa| |sa ma ea], b as [sb|sb| |sb mb eb]; F64.sf_decide.
Qed.

Lemma leb_ltb_eqb (a b : float) : (a <=? b) = (a <? b) || (a =? b).
Proof.
  rewrite FloatAxioms.leb_spec, FloatAxioms.ltb_spec, FloatAxioms.eqb_spec.
  apply SFleb_ltb_eqb.
Qed.

Lemma eqb_sym (a b : float) : (a =? b) = (b =? a).
Proof. rewrite !FloatAxioms.eqb_spec. apply SFeqb_sym. Qed.

Lemma ltb_leb (a b : float) : (a <? b) = true -> (a <=? b) = true.
Proof. intros H. now rewrite leb_ltb_eqb, H. Qed.

Lemma eqb_leb (a b : float) : (a =? b) = true -> (a <=? b) = true.
Proof. intros H. rewrite leb_ltb_eqb, H. apply orb_true_r. Qed.

Lemma leb_refl (a : float) : (a =? a) = true -> (a <=? a) = true.
Proof. apply eqb_leb. Qed.

(** Between two numbers, what is not below is at least. *)
Lemma not_ltb_leb (a b : float) :
  (a =? a) = true -> (b =? b) = true -> (a <? b) = false -> (b <=? a) = true.
Proof.
  intros Ha Hb Hlt. rewrite leb_ltb_eqb.
  destruct (F64.ltb_total a b Ha Hb) as [H|[H|H]].
  - congruence.
  - rewrite (eqb_sym b a), H. apply orb_true_r.
  - now rewrite H.
Qed.

Lemma leb_number (a b : float) :
  (a <=? b) = true -> (a =? a) = true /\ (b =? b) = true.
Proof.
  rewrite leb_ltb_eqb. intros H. apply orb_true_iff in H as [H|H].
  - now apply F64.ltb_number.
  - rewrite !FloatAxioms.eqb_spec in *. unfold SFeqb in *.
    destruct (Prim2SF a) as [sa|sa| |sa ma ea], (Prim2SF b) as [sb|sb| |sb mb eb];
      cbn in *; try discriminate; rewrite ?Z.compare_refl, ?Pos.compare_cont_refl;
      repeat match goal with s : bool |- _ => destruct s end; auto.
Qed.

Lemma is_nan_number (a : float) : (a =? a) = true -> is_nan a = false.
Proof. unfold is_nan. now intros ->. Qed.

(** The larger of two numbers is one of them and is at least each. *)
Lemma Math_max_spec (a b : float) :
  (a =? a) = true -> (b =? b) = true ->
  (Math_max a b = a \/ Math_max a b = b)
  /\ (a <=? Math_max a b) = true /\ (b <=? Math_max a b) = true.
Proof.
  intros Ha Hb. unfold Math_max.
  rewrite (is_nan_number a Ha), (is_nan_number b Hb). cbn [orb].
  destruct (a <? b) eqn:Hab.
  - split; [now right|]. split; [now apply ltb_leb | now apply leb_refl].
  - destruct (b <? a) eqn:Hba.
    + split; [now left|]. split; [now apply leb_refl | now apply ltb_leb].
    + destruct (get_sign a).
      * split; [now right|]. split; [now apply not_ltb_leb | now apply leb_refl].
      * split; [now left|]. split; [now apply leb_refl | now apply not_ltb_leb].
Qed.

(** The smaller of two numbers is one of them and is at most each. *)
Lemma Math_min_spec (a b : float) :
  (a =? a) = true -> (b =? b) = true ->
  (Math_min a b = a \/ Math_min a b = b)
  /\ (Math_min a b <=? a) = true /\ (Math_min a b <=? b) = true.
Proof.
  intros Ha Hb. unfold Math_min.
  rewrite (is_nan_number a Ha), (is_nan_number b Hb). cbn [orb].
  destruct (a <? b) eqn:Hab.
  - split; [now left|]. split; [now apply leb_refl | now apply ltb_leb].
  - destruct (b <? a) eqn:Hba.
    + split; [now right|]. split; [now apply ltb_leb | now apply leb_refl].
    + destruct (get_sign a).
      * split; [now left|]. split; [now apply leb_refl | now apply not_ltb_leb].
      * split; [now right|]. split; [now apply not_ltb_leb | now apply leb_refl].
Qed.

Lemma leb_trans (a b c : float) :
  (a <=? b) = true -> (b <=? c) = true -> (a <=? c) = true.
Proof.
  rewrite !leb_ltb_eqb. intros Hab Hbc.
  apply orb_true_iff in Hab as [Hab|Hab]; apply orb_true_iff in Hbc as [Hbc|Hbc].
  - now rewrite (F64.ltb_trans _ _ _ Hab Hbc).
  - rewrite <- (F64.ltb_eqb_r a b c Hbc), Hab. reflexivity.
  - rewrite eqb_sym in Hab.
    assert (H : (a <? c) = true).
    { rewrite !FloatAxioms.ltb_spec, FloatAxioms.eqb_spec in *.
      revert Hab Hbc. unfold SFltb, SFeqb.
      destruct (Prim2SF a) as [sa|sa| |sa ma ea], (Prim2SF b) as [sb|sb| |sb mb eb],
        (Prim2SF c) as [sc|sc| |sc mc ec]; F64.sf_decide. }
    now rewrite H.
  - assert (H : (a =? c) = true).
    { rewrite !FloatAxioms.eqb_spec in *.
      revert Hab Hbc. unfold SFeqb.
      destruct (Prim2SF a) as [sa|sa| |sa ma ea], (Prim2SF b) as [sb|sb| |sb mb eb],
        (Prim2SF c) as [sc|sc| |sc mc ec]; F64.sf_decide. }
    rewrite H. apply orb_true_r.
Qed.

Lemma ltb_asym (a b : float) : (a <? b) = true -> (b <? a) = false.
Proof.
  intros Hab. destruct (b <? a) eqn:Hba; [|reflexivity].
  rewrite <- (F64.ltb_irrefl a). symmetry. exact (F64.ltb_trans _ _ _ Hab Hba).
Qed.

Lemma leb_not_ltb (a b : float) : (a <=? b) = true -> (b <? a) = false.
Proof.
  rewrite leb_ltb_eqb. intros H. apply orb_true_iff in H as [H|H].
  - now apply ltb_asym.
  - rewrite eqb_sym in H. rewrite (F64.ltb_eqb_r b a b) by (now rewrite eqb_sym).
    apply F64.ltb_irrefl.
Qed.

(** No comparison with NaN holds. *)
Lemma ltb_nan_r (a : float) : (a <? nan) = false.
Proof.
  destruct (a <? nan) eqn:H; [|reflexivity].
  apply F64.ltb_number in H as [_ H]. discriminate H.
Qed.

Lemma ltb_nan_l (a : float) : (nan <? a) = false.
Proof.
  destruct (nan <? a) eqn:H; [|reflexivity].
  apply F64.ltb_number in H as [H _]. discriminate H.
Qed.

Lemma not_nan_number (a : float) : is_nan a = false -> (a =? a) = true.
Proof. unfold is_nan. now destruct (a =? a). Qed.

End F64Order.

(** ** Facts about [bestExpression] *)

Section Best.
#[local] Open Scope float_scope.

Let pick := fun (best kv : string * float) => if snd best <? snd kv then kv else best.

(** A running best that nothing to come exceeds is the result. *)
Lemma best_stable (exprs : Expressions) : forall best,
  (forall kv, In kv exprs -> (snd best <? snd kv) = false) ->
  fold_left pick exprs best = best.
Proof.
  induction exprs as [|kv exprs IH]; intros best Hno; cbn [fold_left]; [reflexivity|].
  unfold pick at 2. rewrite (Hno kv (or_introl eq_refl)).
  apply IH. intros kv' Hin. apply Hno. now right.
Qed.

(** What the loop keeps: the running best is the start or an entry with a
    positive score, and no entry seen so far exceeds it. *)
Lemma best_inv (exprs : Expressions) :
  let best := bestExpression exprs in
  (best = ("neutral"%string, 0) \/ (In best exprs /\ (0 <? snd best) = true))
  /\ (forall kv, In kv exprs -> (snd best <? snd kv) = false).
Proof.
  unfold bestExpression. fold pick.
  induction exprs as [|[k v] exprs IH] using rev_ind; cbn zeta.
  - split; [now left | intros kv []].
  - rewrite fold_left_app. cbn [fold_left].
    set (best := fold_left pick exprs ("neutral"%string, 0)) in *.
    cbn zeta in IH. destruct IH as [Hbest Hmax].
    change (pick best (k, v)) with (if snd best <? v then (k, v) else best).
    destruct (snd best <? v) eqn:Hlt.
    + split.
      * right. split; [apply in_or_app; right; now left|]. cbn [snd].
        destruct Hbest as [Hb|[_ Hpos]].
        -- rewrite Hb in Hlt. exact Hlt.
        -- exact (F64.ltb_trans _ _ _ Hpos Hlt).
      * intros kv Hin. cbn [snd]. apply in_app_or in Hin as [Hin|[<-|[]]].
        -- destruct (v <? snd kv) eqn:Hv; [|reflexivity].
           rewrite <- (Hmax kv Hin). symmetry. exact (F64.ltb_trans _ _ _ Hlt Hv).
        -- apply F64.ltb_irrefl.
    + split.
      * destruct Hbest as [Hb|[Hin Hpos]]; [now left|].
        right. split; [apply in_or_app; now left | exact Hpos].
      * intros kv Hin. apply in_app_or in Hin as [Hin|[<-|[]]]; auto.
Qed.

(** The score returned is a number. *)
Lemma best_number (exprs : Expressions) :
  (snd (bestExpression exprs) =? snd (bestExpression exprs)) = true.
Proof.
  destruct (best_inv exprs) as [[Hb|[_ Hpos]] _].
  - now rewrite Hb.
  - now apply F64.ltb_number in Hpos.
Qed.

(** An entry whose score is not positive never replaces the running best,
    which is 0 or positive. *)
Lemma best_positive (exprs : Expressions) : forall best,
  (0 <? snd best) = true \/ snd best = 0 ->
  fold_left pick (filter (fun kv => 0 <? snd kv) exprs) best = fold_left pick exprs best.
Proof.
  induction exprs as [|[k v] exprs IH]; intros best Hbest; [reflexivity|].
  cbn [filter fold_left snd].
  assert (Hstep : (0 <? snd (pick best (k, v))) = true \/ snd (pick best (k, v)) = 0).
  { change (pick best (k, v)) with (if snd best <? v then (k, v) else best).
    destruct (snd best <? v) eqn:Hlt; [|exact Hbest].
    left. cbn [snd]. destruct Hbest as [Hpos|Hzero].
    - exact (F64.ltb_trans _ _ _ Hpos Hlt).
    - now rewrite Hzero in Hlt. }
  destruct (0 <? v) eqn:Hv.
  - cbn [fold_left]. now apply IH.
  - assert (Hkeep : pick best (k, v) = best).
    { change (pick best (k, v)) with (if snd best <? v then (k, v) else best).
      destruct (snd best <? v) eqn:Hlt; [|reflexivity].
      exfalso. destruct Hbest as [Hpos|Hzero].
      - rewrite (F64.ltb_trans _ _ _ Hpos Hlt) in Hv. discriminate.
      - rewrite Hzero in Hlt. congruence. }
    rewrite Hkeep. now apply IH.
Qed.

End Best.

(** ** The counter at 2^53 *)

Section Counter.
Context {E : Engine}.
Import TrackMap TrackMapFacts.
#[local] Open Scope Z_scope.

(** The binary64 counter at its last two values: 2^53 - 1 goes to 2^53, and
    2^53 stays. *)
Remark counter_stops_at_two53 :
  (9007199254740991 + 1 = 9007199254740992)%float
  /\ (9007199254740992 + 1 = 9007199254740992)%float
  /\ plusOne 9007199254740991 = 9007199254740992
  /\ plusOne 9007199254740992 = 9007199254740992.
Proof. repeat split; reflexivity. Qed.

(** A detection whose box has no size is near enough to no track. *)
Lemma ghost_is_new now st : accept now st Sample.ghost = None.
Proof.
  unfold accept. cbn zeta.
  destruct (fst (nearest now (centerOf (box Sample.ghost)) (tracks st))); [|reflexivity].
  change (Math_max (Box.width (box Sample.ghost)) (Box.height (box Sample.ghost))) with nan.
  now rewrite F64Order.ltb_nan_r.
Qed.

Lemma ghost_frame_counter now st :
  nextId (snd (assignTracks now st [Sample.ghost])) = plusOne (nextId st).
Proof. cbn. unfold assignOne. now rewrite ghost_is_new. Qed.

Lemma ghost_frame_created now st :
  createdIds (frameLog now st [Sample.ghost]) = [nextId st].
Proof.
  unfold frameLog. rewrite createdIds_app, createdIds_expired, app_nil_r.
  cbn. unfold eventOf. now rewrite ghost_is_new.
Qed.

(** [n] such detections, one per frame, advance the counter by [n] as long
    as that does not pass 2^53. *)
Lemma ghosts_counter now n : forall st,
  nextId st + Z.of_nat n <= 2 ^ 53 ->
  nextId (run st (repeat (now, [Sample.ghost]) n)) = nextId st + Z.of_nat n.
Proof.
  induction n as [|n IH]; intros st Hle; [cbn [repeat run]; lia|].
  cbn [repeat run]. rewrite IH; rewrite ghost_frame_counter; unfold plusOne;
    destruct (Z.ltb_spec (nextId st) (2 ^ 53)); lia.
Qed.

Lemma two_ghost_frames now st :
  createdIds (runLog st [(now, [Sample.ghost]); (now, [Sample.ghost])])
  = [nextId st; plusOne (nextId st)].
Proof.
  cbn [runLog]. rewrite app_nil_r, createdIds_app.
  now rewrite !ghost_frame_created, ghost_frame_counter.
Qed.

Lemma sorted_suffix (l1 l2 : list Z) :
  StronglySorted Z.lt (l1 ++ l2) -> StronglySorted Z.lt l2.
Proof.
  induction l1 as [|a l1 IH]; cbn; [auto|].
  intros Hs. apply StronglySorted_inv in Hs as [Hs _]. auto.
Qed.

End Counter.

(** ** A frame as a whole *)

Section Frame.
Context {E : Engine}.
Import TrackMap TrackMapFacts.
#[local] Open Scope Z_scope.



(** One detection adds one track to the table at most. *)
Lemma assignOne_length now st det :
  (List.length (tracks (snd (assignOne now st det))) <= S (List.length (tracks st)))%nat.
Proof.
  unfold assignOne. destruct (accept now st det) as [bestId|]; cbn.
  - unfold alter. rewrite length_map. lia.
  - rewrite length_set. destruct (in_dec _ _ _); lia.
Qed.

Lemma matchAll_length now dets : forall st,
  (List.length (tracks (snd (matchAll now st dets)))
   <= List.length (tracks st) + List.length dets)%nat.
Proof.
  induction dets as [|det dets IH]; intros st; cbn [matchAll snd List.length]; [lia|].
  pose proof (assignOne_length now st det). specialize (IH (snd (assignOne now st det))).
  lia.
Qed.

(** Below 2^53 the table grows by what the counter advances. *)
Lemma assignOne_grows now st det :
  wf st -> nextId (snd (assignOne now st det)) < 2 ^ 53 ->
  Z.of_nat (List.length (tracks (snd (assignOne now st det))))
  = Z.of_nat (List.length (tracks st)) + (nextId (snd (assignOne now st det)) - nextId st).
Proof.
  intros Hwf. unfold assignOne. destruct (accept now st det) as [bestId|]; intros Hlt.
  - cbn. unfold alter. rewrite length_map. lia.
  - rewrite (newTrack_tracks _ _ _ Hwf), length_app.
    cbn [newTrack snd nextId] in *. apply plusOne_below in Hlt. rewrite Hlt.
    cbn. lia.
Qed.

Lemma matchAll_grows now dets : forall st,
  wf st -> nextId (snd (matchAll now st dets)) < 2 ^ 53 ->
  Z.of_nat (List.length (tracks (snd (matchAll now st dets))))
  = Z.of_nat (List.length (tracks st)) + (nextId (snd (matchAll now st dets)) - nextId st).
Proof.
  induction dets as [|det dets IH]; intros st Hwf Hlt; cbn [matchAll snd] in *; [lia|].
  assert (Hlt1 : nextId (snd (assignOne now st det)) < 2 ^ 53).
  { pose proof (matchAll_counter now dets (snd (assignOne now st det))). lia. }
  rewrite (IH _ (wf_assignOne now st det Hwf Hlt1) Hlt).
  rewrite (assignOne_grows now st det Hwf Hlt1). lia.
Qed.

(** The counter does not pass 2^53. *)
Lemma matchAll_top now dets : forall st,
  nextId st <= 2 ^ 53 -> nextId (snd (matchAll now st dets)) <= 2 ^ 53.
Proof.
  induction dets as [|det dets IH]; intros st Hle; cbn [matchAll snd]; [assumption|].
  apply IH. unfold assignOne. destruct (accept now st det); cbn; [assumption|].
  unfold plusOne. destruct (Z.ltb_spec (nextId st) (2 ^ 53)); lia.
Qed.

Lemma run_top frames : forall st, nextId st <= 2 ^ 53 -> nextId (run st frames) <= 2 ^ 53.
Proof.
  induction frames as [|[now dets] frames IH]; intros st Hle; cbn [run]; [assumption|].
  apply IH. cbn. now apply matchAll_top.
Qed.

(** The detections of a frame end the call with an identity of the table
    that is 1 at least. *)
Lemma assignTracks_tracked now st dets :
  sound st ->
  Forall (fun d => exists id t,
            trackId d = Some id /\ 1 <= id
            /\ get (tracks (snd (assignTracks now st dets))) id = Some t)
         (fst (assignTracks now st dets)).
Proof.
  intros Hs.
  pose proof (sound_assignTracks now st dets Hs) as Hs'.
  pose proof (sound_matchAll now dets st Hs) as Hs1.
  eapply Forall_impl; [|exact (matchAll_tracked now dets st Hs)].
  intros d (id & t & Hid & Hget & Hseen).
  assert (Hget' : get (tracks (snd (assignTracks now st dets))) id = Some t).
  { cbn. rewrite cleanup_get, Hget, Hseen by (now apply sound_NoDup).
    now rewrite F64.sub_diag_not_above. }
  assert (Hpos : 1 <= id <= nextId (snd (assignTracks now st dets))).
  { apply (sound_within _ _ Hs'). eapply in_keys, get_in. exact Hget'. }
  exists id, t. repeat split; [assumption | lia | assumption].
Qed.

End Frame.

(** ** Facts about the sidebar counts *)

Section Counts.
#[local] Open Scope Z_scope.
Import Obj.

Lemma keys_set_in (o : Obj.t Z) k v : In k (keys o) -> keys (set o k v) = keys o.
Proof.
  unfold keys. induction o as [|[k' v'] o IH]; cbn; [tauto|].
  intros Hin. destruct (String.eqb_spec k' k) as [->|Hne]; [reflexivity|].
  cbn. rewrite IH; [reflexivity|]. destruct Hin; [contradiction | assumption].
Qed.

Lemma sumCounts_set (o : Obj.t Z) k v :
  settable k = true ->
  sumCounts (set o k v) = sumCounts o - countOf o k + v.
Proof.
  intros Hk. unfold countOf, sumCounts.
  induction o as [|[k' v'] o IH]; cbn; [rewrite Hk; cbn; lia|].
  destruct (String.eqb_spec k' k) as [->|Hne]; cbn; [lia|].
  rewrite IH. lia.
Qed.

(** [(counts[name]||0)]: a count of 0 and a missing count read the same. *)
Lemma countUp_set counts name :
  countUp counts name = set counts name (countOf counts name + 1).
Proof.
  unfold countUp, countOf. destruct (get counts name) as [c|]; [|reflexivity].
  destruct (Z.eqb_spec c 0) as [->|]; reflexivity.
Qed.

(** A plain name is one an assignment can add. *)
Lemma plain_settable name : plainName name = true -> settable name = true.
Proof.
  unfold plainName, settable. intros Hplain.
  destruct (String.eqb_spec name "__proto__") as [->|]; [discriminate | reflexivity].
Qed.

Lemma countUp_countOf counts name n :
  settable name = true ->
  countOf (countUp counts name) n
  = countOf counts n + (if string_dec name n then 1 else 0).
Proof.
  intros Hk. rewrite countUp_set. unfold countOf at 1.
  destruct (string_dec name n) as [->|Hne].
  - now rewrite ObjFacts.get_set_same.
  - rewrite ObjFacts.get_set_other by assumption. unfold countOf. lia.
Qed.

Lemma countUp_keys counts name n :
  settable name = true ->
  In n (keys (countUp counts name)) <-> In n (keys counts) \/ name = n.
Proof.
  intros Hk. rewrite countUp_set.
  destruct (in_dec string_dec name (keys counts)) as [Hin|Hn].
  - rewrite keys_set_in by assumption. split; [auto | intros [H|<-]; assumption].
  - rewrite ObjFacts.keys_set_notin by assumption. rewrite in_app_iff. cbn. tauto.
Qed.

Lemma countUp_NoDup counts name :
  settable name = true -> NoDup (keys counts) -> NoDup (keys (countUp counts name)).
Proof.
  intros Hk Hnd. rewrite countUp_set.
  destruct (in_dec string_dec name (keys counts)) as [Hin|Hn].
  - now rewrite keys_set_in.
  - rewrite ObjFacts.keys_set_notin by assumption.
    apply NoDup_app; [assumption | repeat constructor; intros [] |].
    intros k Hin [<-|[]]. contradiction.
Qed.

Lemma countUp_sum counts name :
  settable name = true -> sumCounts (countUp counts name) = sumCounts counts + 1.
Proof. intros Hk. rewrite countUp_set, sumCounts_set by assumption. lia. Qed.

(** The loop over plain names: it ends, and what it adds to the counts. *)
Lemma tally_spec names : forall counts,
  Forall (fun n => plainName n = true) names ->
  exists counts',
    tally counts names = Some counts'
    /\ (NoDup (keys counts) -> NoDup (keys counts'))
    /\ (forall n, countOf counts' n = countOf counts n + Z.of_nat (count_occ string_dec names n))
    /\ (forall n, In n (keys counts') <-> In n (keys counts) \/ In n names)
    /\ sumCounts counts' = sumCounts counts + Z.of_nat (List.length names).
Proof.
  induction names as [|name names IH]; intros counts Hplain.
  - exists counts. cbn. repeat split; auto; try lia; tauto.
  - inversion Hplain as [|? ? Hname Hrest]; subst.
    destruct (IH (countUp counts name) Hrest) as (counts' & Hrun & Hnd & Hocc & Hkeys & Hsum).
    pose proof (plain_settable name Hname) as Hset.
    exists counts'. cbn [tally]. rewrite Hname. split; [exact Hrun|].
    split; [intros H; apply Hnd; now apply countUp_NoDup|].
    split; [|split].
    + intros n. rewrite Hocc, countUp_countOf by assumption. cbn [count_occ].
      destruct (string_dec name n); lia.
    + intros n. rewrite Hkeys, countUp_keys by assumption. cbn [In]. tauto.
    + rewrite Hsum, countUp_sum by assumption. cbn [List.length]. lia.
Qed.

(** A count that an object of distinct keys holds is found by the read. *)
Lemma count_found (o : Obj.t Z) k v : NoDup (keys o) -> In (k, v) o -> get o k = Some v.
Proof.
  unfold keys. induction o as [|[k' v'] o IH]; cbn; [tauto|].
  intros Hnd [[= -> ->]|Hin].
  - now rewrite String.eqb_refl.
  - inversion Hnd as [|? ? Hk Hnd']; subst.
    destruct (String.eqb_spec k' k) as [->|Hne]; [|auto].
    exfalso. apply Hk. change k with (fst (k, v)). now apply in_map.
Qed.

End Counts.

(** ** Facts about the sort of the rows *)

Section Rows.
#[local] Open Scope Z_scope.

Lemma insertRow_perm r rows : Permutation (insertRow r rows) (r :: rows).
Proof.
  induction rows as [|r' rows IH]; cbn; [reflexivity|].
  destruct (snd r' <=? snd r); [reflexivity|].
  rewrite IH. apply perm_swap.
Qed.

Lemma sortRows_perm rows : Permutation (sortRows rows) rows.
Proof.
  induction rows as [|r rows IH]; cbn; [reflexivity|].
  rewrite insertRow_perm. now constructor.
Qed.

Lemma insertRow_sorted r rows :
  StronglySorted notBelow rows -> StronglySorted notBelow (insertRow r rows).
Proof.
  induction 1 as [|r' rows Hs IH Hall]; cbn.
  - repeat constructor.
  - destruct (Z.leb_spec (snd r') (snd r)) as [Hle|Hgt].
    + constructor; [now constructor|].
      constructor; [exact Hle|].
      eapply Forall_impl; [|exact Hall]. unfold notBelow. intros; lia.
    + constructor; [exact IH|].
      apply (Permutation_Forall (Permutation_sym (insertRow_perm r rows))).
      constructor; [unfold notBelow; lia | exact Hall].
Qed.

Lemma sortRows_sorted rows : StronglySorted notBelow (sortRows rows).
Proof.
  induction rows as [|r rows IH]; cbn; [constructor | now apply insertRow_sorted].
Qed.

(** In a sorted list, what comes after the first rows is not above them. *)
Lemma sorted_app_below (front back : list (string * Z)) r r' :
  StronglySorted notBelow (front ++ back) -> In r front -> In r' back -> snd r' <= snd r.
Proof.
  induction front as [|a front IH]; cbn; [tauto|].
  intros Hs [->|Hin] Hback.
  - apply StronglySorted_inv in Hs as [_ Hall].
    rewrite Forall_forall in Hall. apply (Hall r'). apply in_or_app. now right.
  - apply StronglySorted_inv in Hs as [Hs _]. now apply IH.
Qed.

Lemma sorted_firstn n (rows : list (string * Z)) :
  StronglySorted notBelow rows -> StronglySorted notBelow (firstn n rows).
Proof.
  intros Hs. revert n. induction Hs as [|r rows Hs IH Hall]; intros [|n]; cbn;
    try constructor; auto.
  rewrite Forall_forall in *. intros x Hx. apply Hall.
  rewrite <- (firstn_skipn n rows). apply in_or_app. now left.
Qed.

End Rows.

(** ** Facts about the trails *)

Section Trails.
#[local] Open Scope Z_scope.

Lemma pushAll (dets : list Detection) : forall trails,
  fold_left pushTrail dets trails = trails ++ map dotOf dets.
Proof.
  induction dets as [|det dets IH]; intros trails; cbn [fold_left map].
  - now rewrite app_nil_r.
  - rewrite IH. unfold pushTrail. fold (dotOf det). now rewrite <- app_assoc.
Qed.

(** The loop from the end: when the index reaches the front of [post], the
    dots before it are as they were and those from it on are done. *)
Lemma ageFrom_spec (pre : list Trail.t) : forall post,
  ageFrom (List.length pre) (pre ++ post) = Some (filter shown (map older pre) ++ post).
Proof.
  induction pre as [|t pre IH] using rev_ind; intros post; [reflexivity|].
  rewrite length_app, Nat.add_comm. cbn [List.length Nat.add ageFrom].
  rewrite <- app_assoc. cbn [app].
  rewrite nth_error_app2, Nat.sub_diag by lia. cbn [nth_error].
  rewrite firstn_app, Nat.sub_diag, firstn_all. cbn [firstn]. rewrite !app_nil_r.
  replace (skipn (S (List.length pre)) (pre ++ t :: post)) with post
    by (change (S (List.length pre)) with (1 + List.length pre)%nat;
        rewrite <- skipn_skipn, skipn_app, Nat.sub_diag, skipn_all; reflexivity).
  rewrite map_app, filter_app. cbn [map filter]. unfold shown at 2.
  rewrite <- app_assoc.
  destruct (Z.leb_spec (Trail.life (older t)) 0) as [Hle|Hgt].
  - rewrite IH. destruct (Z.ltb_spec 0 (Trail.life (older t))); [lia|].
    reflexivity.
  - rewrite IH. destruct (Z.ltb_spec 0 (Trail.life (older t))); [|lia].
    reflexivity.
Qed.

Lemma ageTrails_spec (trails : list Trail.t) :
  ageTrails trails = Some (filter shown (map older trails)).
Proof.
  unfold ageTrails. rewrite <- (app_nil_r trails) at 2.
  rewrite ageFrom_spec. now rewrite app_nil_r.
Qed.

Lemma olderBy_zero t : olderBy 0 t = t.
Proof. destruct t. unfold olderBy; cbn. now rewrite Z.sub_0_r. Qed.

Lemma older_olderBy d t : olderBy d (older t) = olderBy (1 + d) t.
Proof.
  unfold olderBy, older. cbn [Trail.x Trail.y Trail.life Trail.id]. f_equal. lia.
Qed.

(** Ageing by one frame and dropping, then by [d] more and dropping, is
    ageing by [1 + d] and dropping. *)
Lemma age_twice d (l : list Trail.t) :
  0 <= d ->
  filter shown (map (olderBy d) (filter shown (map older l)))
  = filter shown (map (olderBy (1 + d)) l).
Proof.
  intros Hd. induction l as [|t l IH]; [reflexivity|].
  cbn [map filter]. destruct (shown (older t)) eqn:Hshown.
  - cbn [map filter]. rewrite IH, older_olderBy. reflexivity.
  - rewrite IH.
    assert (Hgone : shown (olderBy (1 + d) t) = false).
    { unfold shown, olderBy, older in *. cbn [Trail.life] in *.
      apply Z.ltb_ge. apply Z.ltb_ge in Hshown. lia. }
    now rewrite Hgone.
Qed.

Lemma drawnFrames_nonneg frames : 0 <= drawnFrames frames.
Proof. unfold drawnFrames. lia. Qed.

Lemma drawnFrames_cons checked dets frames :
  drawnFrames ((checked, dets) :: frames)
  = (if checked then 1 else 0) + drawnFrames frames.
Proof. unfold drawnFrames. cbn [filter fst]. destruct checked; cbn [List.length]; lia. Qed.

(** A run from any trail of dots that are all shown. *)
Lemma trailsRun_spec frames : forall trails,
  Forall (fun t => shown t = true) trails ->
  trailsRun trails frames
  = Some (filter shown (map (olderBy (drawnFrames frames)) trails) ++ trailOf frames).
Proof.
  induction frames as [|[checked dets] frames IH]; intros trails Hshown.
  - cbn [trailsRun trailOf]. change (drawnFrames []) with 0.
    rewrite app_nil_r. f_equal.
    induction Hshown as [|t l Ht Hl IHl]; [reflexivity|].
    cbn [map filter]. rewrite olderBy_zero, Ht. now f_equal.
  - cbn [trailsRun trailOf]. rewrite drawnFrames_cons.
    destruct checked; cbn [trailsFrame].
    + rewrite pushAll, ageTrails_spec, IH.
      * rewrite age_twice by apply drawnFrames_nonneg.
        now rewrite map_app, filter_app, <- app_assoc.
      * rewrite Forall_forall. intros t Hin. now apply filter_In in Hin.
    + now rewrite IH.
Qed.

(** The dots of [trailOf]: the dots of a drawn frame that at most 28 drawn
    frames follow. *)
Lemma trailOf_In frames t :
  In t (trailOf frames) <->
  exists before dets after det,
    frames = before ++ (true, dets) :: after
    /\ In det dets
    /\ drawnFrames after <= 28
    /\ t = olderBy (1 + drawnFrames after) (dotOf det).
Proof.
  induction frames as [|[checked dets] frames IH]; cbn [trailOf].
  - split; [intros [] | intros (before & ? & ? & ? & H & _)].
    now destruct before.
  - rewrite in_app_iff, IH. split.
    + intros [Hin|(before & dets' & after & det & -> & Hdet & Hk & ->)].
      * destruct checked; [|destruct Hin].
        apply filter_In in Hin as [Hin Hshown].
        rewrite map_map in Hin. apply in_map_iff in Hin as (det & <- & Hdet).
        exists [], dets, frames, det. repeat split; auto.
        unfold shown, olderBy, dotOf in Hshown. cbn [Trail.life] in Hshown.
        apply Z.ltb_lt in Hshown. lia.
      * exists ((checked, dets) :: before), dets', after, det. repeat split; auto.
    + intros (before & dets' & after & det & Hsplit & Hdet & Hk & ->).
      destruct before as [|b before]; cbn in Hsplit.
      * inversion Hsplit; subst. left.
        apply filter_In. split.
        -- rewrite map_map. apply in_map_iff. now exists det.
        -- unfold shown, olderBy, dotOf. cbn [Trail.life]. apply Z.ltb_lt. lia.
      * inversion Hsplit; subst. right.
        exists before, dets', after, det. repeat split; auto.
Qed.

End Trails.

(** * Part III: the claims *)

(** The theorems hold for every engine.  The examples, which are runs of
    the code on given inputs, and the instances of the theorems are
    computed on the engine [Sample.engine]. *)
#[local] Existing Instance Sample.engine.

(** ** The smoother *)

(** C7.  Cold start: for every expression vector [V] and every [alpha],
    smoothing with an absent previous value returns exactly [V]. *)
Theorem ema_cold_start {num : Type} `{Arith num} (V : Obj.t num) (alpha : num) :
  emaExpressions None V alpha = V.
Proof. reflexivity. Qed.

Section C2.
#[local] Open Scope float_scope.
#[local] Open Scope string_scope.

(** C2, as stated, fails: with [previous = {happy: 0.9}] and
    [current = {happy: 0.5, sad: 0.5}] the component [sad], present in
    [current] only, does not come out as the current value 0.5: it is NaN,
    since [0.6 * undefined] is NaN. *)
Lemma ema_missing_component_not_current :
  Obj.get (emaExpressions (Some [("happy", 0.9)]) [("happy", 0.5); ("sad", 0.5)] 0.6) "sad"
  = Some nan
  /\ Obj.get (emaExpressions (Some [("happy", 0.9)]) [("happy", 0.5); ("sad", 0.5)] 0.6) "sad"
     <> Obj.get [("happy", 0.5); ("sad", 0.5)] "sad".
Proof.
  split; [reflexivity|].
  intros Heq. apply (f_equal (option_map is_nan)) in Heq.
  vm_compute in Heq. discriminate.
Qed.

End C2.

(** C2, amended.  When [previous] is present, the result has the keys of
    [current], in the same order; a component that both vectors have is
    [alpha * previous[name] + (1 - alpha) * current[name]], and a component
    that [current] has and [previous] lacks is NaN.  One key is not copied:
    ['__proto__'], should [current] have a property of that name, since the
    assignment [out['__proto__'] = number] adds no property.  (The keys of an
    object are distinct, which is the hypothesis.) *)
Theorem ema_components {num : Type} `{ArithNaN num}
    (prev cur : Obj.t num) (alpha : num) :
  NoDup (Obj.keys cur) ->
  Obj.keys (emaExpressions (Some prev) cur alpha) = filter Obj.settable (Obj.keys cur)
  /\ (forall k c, k <> "__proto__"%string -> Obj.get cur k = Some c ->
        Obj.get (emaExpressions (Some prev) cur alpha) k =
        match Obj.get prev k with
        | Some p => Some (alpha * p + (1 - alpha) * c)%num
        | None => Some n_nan
        end)
  /\ Obj.get (emaExpressions (Some prev) cur alpha) "__proto__" = None.
Proof.
  intros Hnd. split; [now apply ema_keys|]. split.
  - intros k c Hk Hc. apply ObjFacts.settable_spec in Hk.
    rewrite (ema_get prev cur alpha k c Hk Hc). unfold prop.
    destruct (Obj.get prev k); [reflexivity|].
    now rewrite n_mul_nan, n_add_nan.
  - now apply ema_unsettable.
Qed.

Lemma ema_components_witness :
  Obj.keys (emaExpressions (Some [("happy"%string, 0.9%float); ("neutral"%string, 0.1%float)])
              [("happy"%string, 0.5%float); ("neutral"%string, 0.5%float)] 0.6%float)
  = ["happy"%string; "neutral"%string]
  /\ Obj.get (emaExpressions (Some [("happy"%string, 0.9%float); ("neutral"%string, 0.1%float)])
              [("happy"%string, 0.5%float); ("neutral"%string, 0.5%float)] 0.6%float)
       "happy"%string
     = Some (0.6 * 0.9 + (1 - 0.6) * 0.5)%float.
Proof.
  assert (Hnd : NoDup (Obj.keys [("happy"%string, 0.5%float); ("neutral"%string, 0.5%float)])).
  { repeat constructor; cbn; intuition discriminate. }
  destruct (ema_components
              [("happy"%string, 0.9%float); ("neutral"%string, 0.1%float)]
              [("happy"%string, 0.5%float); ("neutral"%string, 0.5%float)]
              0.6%float Hnd) as (Hkeys & Hget & _).
  split; [exact Hkeys|].
  exact (Hget "happy"%string 0.5%float ltac:(discriminate) eq_refl).
Defined.

(** The scenario of the design notes: 0.9 then 0.5 for [happy], 0.1 then
    0.5 for [neutral], smoothed with 0.6, give the binary64 numbers nearest
    to 0.74 and 0.26. *)
Example ema_end_to_end :
  emaExpressions (Some [("happy"%string, 0.9%float); ("neutral"%string, 0.1%float)])
    [("happy"%string, 0.5%float); ("neutral"%string, 0.5%float)] 0.6%float
  = [("happy"%string, 0.74%float); ("neutral"%string, 0.26%float)].
Proof. reflexivity. Qed.

(** ** Repeated smoothing (C9)

    The claim is one of real arithmetic: the difference from [V] shrinks
    at each call and the result tends to [V].  The program smooths in
    binary64, where each of the two products and the sum is rounded, and
    there the difference neither shrinks at each call nor stays at zero
    once it is zero.  The three examples are runs of the code. *)

(** A starting vector that lacks a key of [V]: from the empty object and
    [V = {happy: 0.5}], with [alpha = 0.6], the component is NaN after the
    first call and after the second. *)
Lemma ema_missing_key_never_converges :
  Obj.get (smoothTimes 1 0.6%float [("happy"%string, 0.5%float)] []) "happy"%string = Some nan
  /\ Obj.get (smoothTimes 2 0.6%float [("happy"%string, 0.5%float)] []) "happy"%string = Some nan
  /\ (abs (prop (smoothTimes 2 0.6 [("happy"%string, 0.5)] []) "happy" - 0.5)
      <? abs (prop (smoothTimes 1 0.6 [("happy"%string, 0.5)] []) "happy" - 0.5))%float
     = false
  /\ (prop (smoothTimes 1 0.6 [("happy"%string, 0.5)] []) "happy" =? 0.5)%float = false.
Proof. repeat split; reflexivity. Qed.

(** Equal does not stay equal: with the weight of the program, 0.6, the
    component 0.9 smoothed towards 0.9 is the next binary64 number above
    0.9. *)
Example ema_rounding_leaves_the_target :
  smoothAgain 0.6%float [("k"%string, 0.9%float)] [("k"%string, 0.9%float)]
  = [("k"%string, 0.9000000000000001%float)]
  /\ (0.9 <? 0.9000000000000001)%float = true.
Proof. split; reflexivity. Qed.

(** The difference can stay where it is: with [alpha = 0.9] and
    [V = {k: 0}], the smallest positive number is sent to itself. *)
Example ema_rounding_stalls :
  smoothAgain 0.9%float [("k"%string, 0%float)] [("k"%string, 0x1p-1074%float)]
  = [("k"%string, 0x1p-1074%float)].
Proof. reflexivity. Qed.

(** ** The tracker *)

(** C1.  The claim is that no two detections of a frame end the call with
    the same [trackId].  The code does not keep it: [assignTracks] creates
    the set [used] (line 86) and never consults it.  On a first frame with
    two faces side by side, the left one opens track 1 and the right one,
    50 pixels away and 80 pixels wide, is matched to that same track. *)
Example two_faces_share_a_track :
  map trackId (fst (assignTracks 1000 init [Sample.left; Sample.right]))
  = [Some 1%Z; Some 1%Z]
  /\ TrackMap.keys (tracks (snd (assignTracks 1000 init [Sample.left; Sample.right])))
     = [1%Z].
Proof. split; reflexivity. Qed.

(** C8.  A detection whose identity is not in the table is drawn with its
    own raw expression vector, in the sidebar summary and in the overlay.
    Both lookups are total: the optional chaining yields [undefined] for
    the missing entry and [||] falls back. *)
Theorem missing_track_falls_back (m : TrackMap.t) (det : Detection) (id : Z) :
  trackId det = Some id ->
  TrackMap.get m id = None ->
  overlayExpressions m det = expressions det
  /\ summaryExpressions m det = expressions det.
Proof.
  intros Hid Hget. unfold overlayExpressions, summaryExpressions, labelOf.
  rewrite Hid, Hget. destruct (id =? 0)%Z; split; reflexivity.
Qed.

Lemma missing_track_falls_back_witness :
  overlayExpressions [] (withTrackId Sample.first 7) = Sample.happy
  /\ summaryExpressions [] (withTrackId Sample.first 7) = Sample.happy.
Proof.
  apply (missing_track_falls_back [] (withTrackId Sample.first 7) 7%Z);
    reflexivity.
Defined.



(** ** The matcher *)

(** C5.  The claim is that the nearest active track is accepted exactly
    when its distance is below [max(width, height)] of the detection's box.
    The code misses that when the nearest active track is 99999 pixels away
    or more.  The table holds one track, at (0, 1) and seen at time 0; a
    face 400000 wide is centred 200000 pixels from it, which is less than
    its width, yet it is not matched: it opens track 2.  The scan of line
    89 starts from [bestD = 99999], a number standing for "no distance
    yet" under the comment "find nearest active track", and it only takes
    a track that is nearer than that. *)
Lemma wide_face_is_not_matched :
  TrackMap.keys (tracks Sample.westOnly) = [1%Z]
  /\ Forall (fun e => active 0 (snd e) = true
                      /\ (dist (centerOf (box Sample.wide)) (snd e)
                          <? Math_max (Box.width (box Sample.wide))
                                      (Box.height (box Sample.wide)))%float = true)
       (tracks Sample.westOnly)
  /\ trackId (fst (assignOne 0 Sample.westOnly Sample.wide)) = Some 2%Z.
Proof.
  split; [reflexivity|]. split; [|reflexivity].
  repeat constructor.
Qed.

(** What the matcher does, for every engine.  The nearest active track
    (the first one in table order, if several are nearest) is accepted if
    and only if its distance to the detection's centroid is strictly less
    than both 99999 and [max(width, height)] of the detection's box.  When
    it is accepted the track is touched (centroid, time and smoothed
    expressions) where it stands in the table and its identity is assigned
    to the detection; when it is rejected, and when no active track is
    nearer than 99999 (so, when no track is active), a new track is stored
    under the identity [nextId], which is assigned to the detection, and
    [nextId] is incremented. *)
Theorem matcher_accepts_nearest_within_radius {E : Engine}
    (now : float) (st : State) (det : Detection) :
  sound st ->
  (forall pre id t post,
     tracks st = pre ++ (id, t) :: post ->
     firstNearest now (centerOf (box det)) pre t post ->
     assignOne now st det =
     if ((dist (centerOf (box det)) t <? 99999)
         && (dist (centerOf (box det)) t
             <? Math_max (Box.width (box det)) (Box.height (box det))))%float
     then (withTrackId det id,
           {| tracks := pre ++ (id, touched now det t) :: post;
              nextId := nextId st |})
     else (withTrackId det (nextId st),
           {| tracks := TrackMap.set (tracks st) (nextId st) (fresh now det);
              nextId := plusOne (nextId st) |}))
  /\ ((forall e, In e (tracks st) -> active now (snd e) = true ->
         (dist (centerOf (box det)) (snd e) <? 99999)%float = false) ->
      assignOne now st det =
      (withTrackId det (nextId st),
       {| tracks := TrackMap.set (tracks st) (nextId st) (fresh now det);
          nextId := plusOne (nextId st) |})).
Proof.
  intros Hwf.
  assert (Hnew : newTrack now st det =
                 (withTrackId det (nextId st),
                  {| tracks := TrackMap.set (tracks st) (nextId st) (fresh now det);
                     nextId := plusOne (nextId st) |})) by reflexivity.
  split.
  - intros pre id t post Htable Hfirst. unfold assignOne, accept.
    destruct (dist (centerOf (box det)) t <? 99999)%float eqn:Hnear; cbn [andb].
    + assert (Hscan : nearest now (centerOf (box det)) (tracks st)
                      = (Some id, dist (centerOf (box det)) t))
        by (rewrite Htable; now apply nearest_first).
      rewrite Hscan. cbn [fst snd].
      destruct (dist (centerOf (box det)) t <? Math_max _ _)%float; [|exact Hnew].
      unfold updateExisting. f_equal. f_equal.
      pose proof (sound_NoDup _ Hwf) as Hnd.
      rewrite Htable, TrackMapFacts.keys_app in Hnd. cbn in Hnd.
      apply NoDup_remove_2 in Hnd.
      rewrite Htable.
      apply TrackMapFacts.alter_split; intros Hin; apply Hnd, in_or_app; auto.
    + rewrite nearest_nothing; [exact Hnew|].
      rewrite Htable. now apply nearest_far.
  - intros Hnone. unfold assignOne, accept. now rewrite nearest_nothing.
Qed.

(** The second frame of the scenario: the face, 2.2 pixels from where the
    track saw it 50 ms earlier, is matched to track 1. *)
Lemma matcher_accepts_nearest_within_radius_witness :
  assignOne 1050 Sample.seenOnce Sample.second
  = (withTrackId Sample.second 1,
     {| tracks := [(1%Z, touched 1050 Sample.second
                           {| cx := 30; cy := 30; lastSeen := 1000;
                              exprEMA := Sample.happy |})];
        nextId := 2 |}).
Proof.
  assert (Hwf : sound Sample.seenOnce) by (apply wf_sound; wf_eval).
  destruct (matcher_accepts_nearest_within_radius (E := Sample.engine) 1050 Sample.seenOnce Sample.second Hwf)
    as [Hnearest _].
  apply (Hnearest [] 1%Z
           {| cx := 30; cy := 30; lastSeen := 1000; exprEMA := Sample.happy |} []).
  - reflexivity.
  - split; [reflexivity | split; [reflexivity | split; intros e []]].
Defined.

(** C10.  The claim is that of the active tracks at the same minimum
    distance the matcher selects the one inserted first.  The code misses
    that when the tied tracks are 99999 pixels away or more, for the reason
    of C5: the scan starts from [bestD = 99999].  Tracks 1 and 2 are both
    active and both exactly 200000 pixels from the centre of a face 400000
    wide; no other track is nearer and both are within the face's reach;
    the scan selects neither of them and the face opens track 3. *)
Lemma distant_tie_selects_nobody :
  map (fun e => (fst e, active 0 (snd e), dist (centerOf (box Sample.wide)) (snd e)))
      (tracks Sample.farApart)
  = [(1%Z, true, 200000%float); (2%Z, true, 200000%float)]
  /\ (200000 <? Math_max (Box.width (box Sample.wide)) (Box.height (box Sample.wide)))%float
     = true
  /\ fst (nearest 0 (centerOf (box Sample.wide)) (tracks Sample.farApart)) = None
  /\ trackId (fst (assignOne 0 Sample.farApart Sample.wide)) = Some 3%Z.
Proof. repeat split; reflexivity. Qed.

(** Ties, for every engine.  When the minimum distance from a detection's
    centroid to the active tracks is below 99999, the scan selects the
    track that was inserted first among the active tracks at that distance;
    it is the one with the smallest identity among them.  ([tf] is active
    and at the distance [dist c tf], below 99999; no active track is
    nearer; the active tracks inserted before [tf] are not at that
    distance.) *)
Theorem tie_goes_to_first_inserted {E : Engine}
    (now : float) (c : Point.t) (st : State)
    (pre : TrackMap.t) (idf : Z) (tf : Track) (post : TrackMap.t) :
  sound st ->
  tracks st = pre ++ (idf, tf) :: post ->
  active now tf = true ->
  (dist c tf <? 99999)%float = true ->
  (forall e, In e (tracks st) -> active now (snd e) = true ->
     (dist c (snd e) <? dist c tf)%float = false) ->
  (forall e, In e pre -> active now (snd e) = true ->
     (dist c (snd e) =? dist c tf)%float = false) ->
  nearest now c (tracks st) = (Some idf, dist c tf)
  /\ (forall e, In e (tracks st) -> active now (snd e) = true ->
        (dist c (snd e) =? dist c tf)%float = true -> (idf <= fst e)%Z).
Proof.
  intros Hwf Htable Hact Hnear Hmin Hfirst. split.
  - rewrite Htable. apply nearest_first; [|assumption].
    repeat split.
    + assumption.
    + now destruct (F64.ltb_number _ _ Hnear).
    + apply Hmin; [|assumption]. rewrite Htable. apply in_or_app. now left.
    + now apply Hfirst.
    + intros e Hin Ha. apply Hmin; [|assumption].
      rewrite Htable. apply in_or_app. right. now right.
  - intros e Hin Ha Htie. rewrite Htable in Hin.
    apply in_app_or in Hin as [Hin|[<-|Hin]].
    + rewrite (Hfirst e Hin Ha) in Htie. discriminate.
    + cbn. lia.
    + destruct Hwf as [Hsorted _].
      rewrite Htable, TrackMapFacts.keys_app in Hsorted. cbn in Hsorted.
      apply Z.lt_le_incl. eapply TrackMapFacts.sorted_app_lt; [exact Hsorted|].
      apply (in_map fst) in Hin. exact Hin.
Qed.

(** Tracks 1 and 2 are both 100 pixels from the face between them: the scan
    selects track 1. *)
Lemma tie_goes_to_first_inserted_witness :
  nearest 0 (centerOf (box Sample.between)) (tracks Sample.twoNear)
  = (Some 1%Z, 100%float)
  /\ (1 <= 2)%Z.
Proof.
  assert (Hwf : sound Sample.twoNear) by (apply wf_sound; wf_eval).
  pose (t1 := {| cx := 0; cy := 1; lastSeen := 0; exprEMA := Sample.happy |}).
  pose (t2 := {| cx := 200; cy := 1; lastSeen := 0; exprEMA := Sample.happy |}).
  destruct (tie_goes_to_first_inserted (E := Sample.engine) 0 (centerOf (box Sample.between)) Sample.twoNear
              [] 1%Z t1 [(2%Z, t2)] Hwf eq_refl eq_refl eq_refl) as [Hscan Hleast].
  - intros e Hin _. vm_compute in Hin.
    destruct Hin as [<-|[<-|[]]]; reflexivity.
  - intros e [].
  - split; [exact Hscan|].
    apply (Hleast (2%Z, t2)); [right; left; reflexivity | reflexivity | reflexivity].
Defined.

(** ** What is drawn and what is exported *)




(** ** Identities *)

(** C4, as stated, fails: the counter is a binary64 number, and at 2^53
    the increment [nextId++] leaves it where it is.  In the run of
    2^53 + 1 frames that each hold one detection matching no track, the
    last two creations both return the identity 2^53. *)
Lemma identity_is_handed_out_twice :
  exists frames l,
    createdIds (runLog init frames) = l ++ [2 ^ 53; 2 ^ 53]%Z
    /\ ~ StronglySorted Z.lt (createdIds (runLog init frames)).
Proof.
  assert (HN : exists N : nat, Z.of_nat N = (2 ^ 53 - 1)%Z).
  { exists (Z.to_nat (2 ^ 53 - 1)). apply Z2Nat.id. discriminate. }
  destruct HN as [N HN].
  pose (f := (0%float, [Sample.ghost])).
  assert (Hfull : nextId (run init (repeat f N)) = (2 ^ 53)%Z).
  { unfold f. rewrite ghosts_counter; change (nextId init) with 1%Z; lia. }
  assert (Hlog : createdIds (runLog init (repeat f N ++ [f; f]))
                 = createdIds (runLog init (repeat f N)) ++ [2 ^ 53; 2 ^ 53]%Z).
  { rewrite runLog_app, createdIds_app. f_equal.
    unfold f at 2 3. rewrite two_ghost_frames, Hfull. reflexivity. }
  exists (repeat f N ++ [f; f]), (createdIds (runLog init (repeat f N))).
  split; [exact Hlog|].
  rewrite Hlog. intros Hs. apply sorted_suffix in Hs.
  apply StronglySorted_inv in Hs as [_ Hs].
  apply Forall_inv in Hs. apply (Z.lt_irrefl _ Hs).
Qed.

(** C4, amended.  In the log of a run of frames from the program's initial
    state that leaves the counter below 2^53 (fewer than 2^53 - 1 tracks
    were created), the identities returned by track creation strictly
    increase, whatever matches and expiries come in between, and an
    identity that expires is never assigned again: it is not created again
    later and no later detection is matched to it. *)
Theorem identities_increase_and_are_not_reused {E : Engine}
    (frames : list (float * list Detection)) :
  (nextId (run init frames) < 2 ^ 53)%Z ->
  StronglySorted Z.lt (createdIds (runLog init frames))
  /\ (forall l1 id l2,
        runLog init frames = l1 ++ Expired id :: l2 ->
        ~ In (Created id) l2 /\ ~ In (Matched id) l2).
Proof.
  intros Hlt.
  pose proof (runLog_consistent frames init wf_init Hlt) as Hlog.
  split.
  - now destruct (consistent_created _ _ _ Hlog).
  - intros l1 id l2 Hsplit. rewrite Hsplit in Hlog.
    eapply consistent_expired; [exact Hlog|].
    intros x [].
Qed.

(** A run of five frames: four identities are created, in order, and three
    expire. *)
Lemma identities_increase_and_are_not_reused_witness :
  StronglySorted Z.lt
    (createdIds
       (runLog init [(0, [Sample.first]); (2000, [Sample.right]); (3100, []);
                     (3200, [Sample.first]); (9000, [Sample.second])]%float))
  /\ (forall l1 id l2,
        runLog init [(0, [Sample.first]); (2000, [Sample.right]); (3100, []);
                     (3200, [Sample.first]); (9000, [Sample.second])]%float
        = l1 ++ Expired id :: l2 ->
        ~ In (Created id) l2 /\ ~ In (Matched id) l2).
Proof.
  apply (identities_increase_and_are_not_reused (E := Sample.engine)
           [(0, [Sample.first]); (2000, [Sample.right]); (3100, []);
            (3200, [Sample.first]); (9000, [Sample.second])]%float).
  vm_compute. reflexivity.
Defined.

Example identities_in_a_run :
  runLog init [(0, [Sample.first]); (2000, [Sample.right]); (3100, []);
               (3200, [Sample.first]); (9000, [Sample.second])]%float
  = [Created 1; Created 2; Expired 1; Created 3; Created 4; Expired 2; Expired 3].
Proof. reflexivity. Qed.

(** ** The tests of the design notes, run *)

(** In every state a run from the initial state reaches, the table has at
    most one entry per identity, and the identities are positive and not
    above [nextId]; they are below [nextId] as long as the counter is below
    2^53. *)
Theorem table_has_one_entry_per_identity {E : Engine}
    (frames : list (float * list Detection)) :
  NoDup (TrackMap.keys (tracks (run init frames)))
  /\ Forall (fun id => (1 <= id <= nextId (run init frames))%Z)
       (TrackMap.keys (tracks (run init frames)))
  /\ ((nextId (run init frames) < 2 ^ 53)%Z ->
      Forall (fun id => (id < nextId (run init frames))%Z)
        (TrackMap.keys (tracks (run init frames)))).
Proof.
  pose proof (sound_run frames init (wf_sound init wf_init)) as Hs.
  split; [now apply sound_NoDup|]. split; [now destruct Hs as (_ & ? & _)|].
  intros Hlt. destruct (wf_run frames init wf_init Hlt) as (_ & Hall & _).
  eapply Forall_impl; [|exact Hall]. cbn. intros id [_ H]. exact H.
Qed.

(** Track continuity: a face centred at (110, 105), 11.2 pixels from the
    track, is matched to it and no identity is created. *)
Example track_continuity :
  map trackId (fst (assignTracks 50 Sample.anchored [Sample.nearby])) = [Some 1%Z]
  /\ nextId (snd (assignTracks 50 Sample.anchored [Sample.nearby])) = 2%Z.
Proof. split; reflexivity. Qed.

(** Track split: a face centred at (300, 300) is not matched and gets a
    new, higher identity. *)
Example track_split :
  map trackId (fst (assignTracks 50 Sample.anchored [Sample.faraway])) = [Some 2%Z]
  /\ TrackMap.keys (tracks (snd (assignTracks 50 Sample.anchored [Sample.faraway])))
     = [1%Z; 2%Z].
Proof. split; reflexivity. Qed.

(** Greedy frame ordering: two faces, 30 and 40 pixels from the track, are
    each within reach of it.  The first in input order takes it and moves
    it; the second, now 70 pixels from it, opens a new track.  In the other
    order the second is 70 pixels from the moved track as well. *)
Example greedy_frame_ordering :
  map trackId (fst (assignTracks 50 Sample.anchored [Sample.toTheRight; Sample.toTheLeft]))
  = [Some 1%Z; Some 2%Z]
  /\ map trackId (fst (assignTracks 50 Sample.anchored [Sample.toTheLeft]))
     = [Some 1%Z]
  /\ map trackId (fst (assignTracks 50 Sample.anchored [Sample.toTheLeft; Sample.toTheRight]))
     = [Some 1%Z; Some 2%Z].
Proof. repeat split; reflexivity. Qed.

(** The end-to-end scenario: the face gets identity 1 in both frames; its
    track holds the raw vector after the first and the binary64 numbers
    nearest to 0.74 and 0.26 after the second. *)
Example end_to_end :
  option_map exprEMA (TrackMap.get (tracks Sample.seenOnce) 1) = Some Sample.happy
  /\ map trackId (fst Sample.seenTwice) = [Some 1%Z]
  /\ option_map exprEMA (TrackMap.get (tracks (snd Sample.seenTwice)) 1)
     = Some [("happy"%string, 0.74%float); ("neutral"%string, 0.26%float)].
Proof. repeat split; reflexivity. Qed.

(** * Part IV: the rest of the overlay, and whole frames *)

(** ** The best expression *)

(** [bestExpression] returns either the default, ['neutral'] with score 0,
    or an entry of the vector with a positive score; no entry of the vector
    has a score above the one returned, and the score returned is a number,
    never NaN. *)
Theorem best_expression_is_a_maximum (exprs : Expressions) :
  (bestExpression exprs = ("neutral"%string, 0)
   \/ (In (bestExpression exprs) exprs /\ (0 <? snd (bestExpression exprs)) = true))
  /\ (forall k v, In (k, v) exprs -> (snd (bestExpression exprs) <? v) = false)
  /\ (snd (bestExpression exprs) =? snd (bestExpression exprs)) = true.
Proof.
  destruct (best_inv exprs) as [Hbest Hmax]. cbn zeta in *.
  split; [exact Hbest|]. split; [|apply best_number].
  intros k v Hin. exact (Hmax (k, v) Hin).
Qed.

(** Among the entries with the largest score, the first in property order
    wins: an entry with a positive score, with only smaller scores and NaN
    before it and nothing larger after it, is the one returned. *)
Theorem best_expression_is_the_first_largest
    (pre post : Expressions) (k : string) (v : float) :
  (0 <? v) = true ->
  (forall k' v', In (k', v') pre -> (v' <? v) = true \/ (v' =? v') = false) ->
  (forall k' v', In (k', v') post -> (v <? v') = false) ->
  bestExpression (pre ++ (k, v) :: post) = (k, v).
Proof.
  intros Hpos Hpre Hpost. unfold bestExpression.
  rewrite fold_left_app. cbn [fold_left].
  fold (bestExpression pre).
  destruct (best_inv pre) as [Hbest _]. cbn zeta in Hbest.
  assert (Hlt : (snd (bestExpression pre) <? snd (k, v)) = true).
  { cbn [snd]. destruct Hbest as [->|[Hin Hp]]; [exact Hpos|].
    destruct (bestExpression pre) as [k' v']. cbn [snd] in *.
    destruct (Hpre k' v' Hin) as [H|H]; [exact H|].
    apply F64.ltb_number in Hp as [_ Hp]. congruence. }
  rewrite Hlt. apply best_stable.
  intros [k' v'] Hin. cbn [snd]. now apply (Hpost k').
Qed.

Lemma best_expression_is_the_first_largest_witness :
  bestExpression ([("sad"%string, 0.2); ("angry"%string, nan)]
                  ++ ("happy"%string, 0.7)
                  :: [("surprised"%string, 0.7); ("neutral"%string, 0.1)])
  = ("happy"%string, 0.7).
Proof.
  apply (best_expression_is_the_first_largest
           [("sad"%string, 0.2); ("angry"%string, nan)]
           [("surprised"%string, 0.7); ("neutral"%string, 0.1)] "happy"%string 0.7).
  - reflexivity.
  - intros k' v' [[= <- <-]|[[= <- <-]|[]]]; [left | right]; reflexivity.
  - intros k' v' [[= <- <-]|[[= <- <-]|[]]]; reflexivity.
Defined.

(** Only the positive scores matter: the entries whose score is zero,
    negative or NaN can be left out of the vector without changing the
    result, and a vector with no positive score gives the default. *)
Theorem best_expression_reads_positive_scores (exprs : Expressions) :
  bestExpression (filter (fun kv => 0 <? snd kv) exprs) = bestExpression exprs
  /\ ((forall k v, In (k, v) exprs -> (0 <? v) = false) ->
      bestExpression exprs = ("neutral"%string, 0)).
Proof.
  split.
  - unfold bestExpression. apply best_positive. now right.
  - intros Hnone. unfold bestExpression. apply best_stable.
    intros [k v] Hin. exact (Hnone k v Hin).
Qed.

(** ** The sidebar summary *)

Section Sidebar.
#[local] Open Scope Z_scope.

(** The name a face is counted under is ['neutral'] or a key of the vector
    it is drawn with. *)
Lemma bestName_plain (m : TrackMap.t) (det : Detection) :
  (forall k, In k (Obj.keys (summaryExpressions m det)) -> plainName k = true) ->
  plainName (bestName m det) = true.
Proof.
  intros Hplain. unfold bestName.
  destruct (best_inv (summaryExpressions m det)) as [[->|[Hin _]] _]; [reflexivity|].
  apply Hplain. unfold Obj.keys. now apply in_map.
Qed.

Lemma names_plain (m : TrackMap.t) (dets : list Detection) :
  (forall det, In det dets ->
     forall k, In k (Obj.keys (summaryExpressions m det)) -> plainName k = true) ->
  Forall (fun n => plainName n = true) (map (bestName m) dets).
Proof.
  intros Hplain. rewrite Forall_forall. intros n Hin.
  apply in_map_iff in Hin as (det & <- & Hdet). apply bestName_plain. now apply Hplain.
Qed.

Lemma facesNamed_pos (m : TrackMap.t) (dets : list Detection) name :
  0 < facesNamed m dets name <-> In name (map (bestName m) dets).
Proof.
  unfold facesNamed. rewrite (count_occ_In string_dec). lia.
Qed.

End Sidebar.

(** When the expression names are plain property names (not a name that
    every object inherits, such as [toString], and not a string of
    digits), the loop of lines 134-139 counts the faces by the name of
    their best expression: [counts] has one property per name that some
    face has, its value is the number of faces of the frame with that name,
    and the values add up to the number of faces. *)
Theorem sidebar_counts_faces (m : TrackMap.t) (dets : list Detection) :
  (forall det, In det dets ->
     forall k, In k (Obj.keys (summaryExpressions m det)) -> plainName k = true) ->
  exists counts,
    tally [] (map (bestName m) dets) = Some counts
    /\ NoDup (Obj.keys counts)
    /\ (forall name, countOf counts name = facesNamed m dets name)
    /\ (forall name, In name (Obj.keys counts) <-> (0 < facesNamed m dets name)%Z)
    /\ sumCounts counts = Z.of_nat (List.length dets).
Proof.
  intros Hplain.
  destruct (tally_spec _ [] (names_plain m dets Hplain))
    as (counts & Hrun & Hnd & Hocc & Hkeys & Hsum).
  exists counts. split; [exact Hrun|].
  split; [apply Hnd; constructor|].
  split; [intros name; rewrite Hocc; reflexivity|].
  split.
  - intros name. rewrite Hkeys, facesNamed_pos. cbn. tauto.
  - rewrite Hsum, length_map. reflexivity.
Qed.

Lemma sidebar_counts_faces_witness :
  exists counts,
    tally [] (map (bestName []) [Sample.first; Sample.second; Sample.left]) = Some counts
    /\ NoDup (Obj.keys counts)
    /\ (forall name,
          countOf counts name
          = facesNamed [] [Sample.first; Sample.second; Sample.left] name)
    /\ (forall name,
          In name (Obj.keys counts)
          <-> (0 < facesNamed [] [Sample.first; Sample.second; Sample.left] name)%Z)
    /\ sumCounts counts = 3%Z.
Proof.
  apply (sidebar_counts_faces [] [Sample.first; Sample.second; Sample.left]).
  intros det [<-|[<-|[<-|[]]]] k [<-|[<-|[]]]; reflexivity.
Defined.

(** Under the same condition the sidebar shows at most five rows, one per
    name, by decreasing count; the count of a row is the number of faces
    with that name; and a name that some face has and no row shows is left
    out only when five rows are shown, none with a smaller count. *)
Theorem sidebar_shows_the_largest_counts (m : TrackMap.t) (dets : list Detection) :
  (forall det, In det dets ->
     forall k, In k (Obj.keys (summaryExpressions m det)) -> plainName k = true) ->
  exists rows,
    sidebarRows m dets = Some rows
    /\ (List.length rows <= 5)%nat
    /\ NoDup (map fst rows)
    /\ StronglySorted notBelow rows
    /\ (forall name c, In (name, c) rows -> c = facesNamed m dets name /\ (0 < c)%Z)
    /\ (forall name, (0 < facesNamed m dets name)%Z -> ~ In name (map fst rows) ->
          List.length rows = 5%nat
          /\ forall r, In r rows -> (facesNamed m dets name <= snd r)%Z).
Proof.
  intros Hplain.
  destruct (tally_spec _ [] (names_plain m dets Hplain))
    as (counts & Hrun & Hnd & Hocc & Hkeys & _).
  specialize (Hnd (NoDup_nil _)).
  pose proof (sortRows_perm counts) as Hperm.
  pose proof (sortRows_sorted counts) as Hsorted.
  set (sorted := sortRows counts) in *.
  exists (firstn 5 sorted).
  assert (Hin : forall name c, In (name, c) sorted ->
                  c = facesNamed m dets name /\ (0 < c)%Z).
  { intros name c Hrow.
    apply (Permutation_in _ Hperm) in Hrow.
    pose proof (count_found counts name c Hnd Hrow) as Hget.
    assert (Hc : c = facesNamed m dets name).
    { pose proof (Hocc name) as Ho. unfold countOf at 1 in Ho.
      rewrite Hget in Ho. rewrite Ho. reflexivity. }
    split; [exact Hc|]. rewrite Hc. apply facesNamed_pos.
    assert (Hk : In name (Obj.keys counts))
      by (change name with (fst (name, c)); apply in_map; exact Hrow).
    apply Hkeys in Hk as [[]|Hk]. exact Hk. }
  assert (Hsub : forall r, In r (firstn 5 sorted) -> In r sorted).
  { intros r Hr. rewrite <- (firstn_skipn 5 sorted). apply in_or_app. now left. }
  split; [unfold sidebarRows; rewrite Hrun; reflexivity|].
  split; [apply firstn_le_length|].
  split; [|split; [now apply sorted_firstn|split]].
  - assert (Hnd' : NoDup (map fst sorted)).
    { apply (Permutation_NoDup (l := map fst counts)); [|exact Hnd].
      apply Permutation_map. now symmetry. }
    rewrite <- (firstn_skipn 5 sorted), map_app in Hnd'.
    now apply NoDup_app_remove_r in Hnd'.
  - intros name c Hrow. apply Hin. now apply Hsub.
  - intros name Hpos Hout.
    apply facesNamed_pos in Hpos.
    assert (Hkey : In name (Obj.keys counts)) by (apply Hkeys; now right).
    unfold Obj.keys in Hkey. apply in_map_iff in Hkey as ([name' c] & Hfst & Hrow).
    cbn in Hfst. subst name'.
    apply (Permutation_in _ (Permutation_sym Hperm)) in Hrow.
    destruct (Hin name c Hrow) as [Hc _].
    assert (Hback : In (name, c) (skipn 5 sorted)).
    { rewrite <- (firstn_skipn 5 sorted) in Hrow.
      apply in_app_or in Hrow as [Hfront|Hback]; [|exact Hback].
      exfalso. apply Hout. change name with (fst (name, c)). now apply in_map. }
    split.
    + apply firstn_length_le.
      destruct (Nat.le_gt_cases 5 (List.length sorted)) as [Hle|Hlt]; [exact Hle|].
      rewrite skipn_all2 in Hback by lia. destruct Hback.
    + intros r Hr. rewrite <- Hc.
      change c with (snd (name, c)).
      apply (sorted_app_below (firstn 5 sorted) (skipn 5 sorted)); auto.
      now rewrite firstn_skipn.
Qed.

Lemma sidebar_shows_the_largest_counts_witness :
  exists rows,
    sidebarRows [] [Sample.first; Sample.second; Sample.left] = Some rows
    /\ (List.length rows <= 5)%nat
    /\ NoDup (map fst rows)
    /\ StronglySorted notBelow rows
    /\ (forall name c, In (name, c) rows ->
          c = facesNamed [] [Sample.first; Sample.second; Sample.left] name /\ (0 < c)%Z)
    /\ (forall name,
          (0 < facesNamed [] [Sample.first; Sample.second; Sample.left] name)%Z ->
          ~ In name (map fst rows) ->
          List.length rows = 5%nat
          /\ forall r, In r rows ->
               (facesNamed [] [Sample.first; Sample.second; Sample.left] name <= snd r)%Z).
Proof.
  apply (sidebar_shows_the_largest_counts [] [Sample.first; Sample.second; Sample.left]).
  intros det [<-|[<-|[<-|[]]]] k [<-|[<-|[]]]; reflexivity.
Defined.

(** ** The trails *)

(** One frame drawn with the trails on: every dot of the trail, the dots
    just pushed for the faces of the frame included, is drawn and aged by
    one frame exactly once, and the dots whose life reaches 0 are removed,
    the others keeping their order.  The loop runs from the last index
    down, so a removal never makes it skip a dot or read past the end. *)
Theorem trails_frame_ages_every_dot_once (dets : list Detection) (trails : list Trail.t) :
  trailsFrame true dets trails
  = Some (filter shown (map older (trails ++ map dotOf dets))).
Proof. cbn [trailsFrame]. now rewrite pushAll, ageTrails_spec. Qed.

(** Over a run of frames from the empty trail, with the trails switched on
    and off at will: the trail holds exactly the dots of the faces of the
    drawn frames that at most 28 drawn frames have followed, each with a
    life of 29 less the number of those frames.  So a dot is drawn in 30
    frames, the frame of its face included, and the life of a dot of the
    trail is between 1 and 29. *)
Theorem trail_holds_the_last_frames (frames : list (bool * list Detection)) :
  exists trails,
    trailsRun [] frames = Some trails
    /\ (forall t, In t trails <->
          exists before dets after det,
            frames = before ++ (true, dets) :: after
            /\ In det dets
            /\ (drawnFrames after <= 28)%Z
            /\ t = olderBy (1 + drawnFrames after) (dotOf det))
    /\ (forall t, In t trails -> (1 <= Trail.life t <= 29)%Z).
Proof.
  exists (trailOf frames). split; [|split].
  - now rewrite trailsRun_spec by constructor.
  - apply trailOf_In.
  - intros t Hin. apply trailOf_In in Hin as (before & dets & after & det & _ & _ & Hk & ->).
    pose proof (drawnFrames_nonneg after).
    unfold olderBy, dotOf. cbn [Trail.life]. lia.
Qed.

(** ** Whole frames of the tracker *)

(** The two lookups of [drawBoxesAndEmojis], line 136 for the sidebar and
    lines 148-149 for the overlay, read the same vector for every
    detection and every table, a detection without identity included: the
    name a face is counted under in the sidebar is the name of the emoji
    drawn on it. *)
Theorem sidebar_and_overlay_agree (m : TrackMap.t) (det : Detection) :
  summaryExpressions m det = overlayExpressions m det
  /\ bestName m det = fst (bestExpression (overlayExpressions m det)).
Proof.
  assert (H : summaryExpressions m det = overlayExpressions m det).
  { unfold summaryExpressions, overlayExpressions, labelOf.
    destruct (trackId det); reflexivity. }
  split; [exact H|]. unfold bestName. now rewrite H.
Qed.





Section Sizes.
#[local] Open Scope Z_scope.

(** Increasing integers from [lo] and below [hi] are at most [hi - lo]. *)
Lemma sorted_length (l : list Z) : forall lo hi,
  StronglySorted Z.lt l -> Forall (fun x => lo <= x < hi) l -> lo <= hi ->
  Z.of_nat (List.length l) <= hi - lo.
Proof.
  induction l as [|a l IH]; intros lo hi Hs Hall Hle; cbn [List.length]; [lia|].
  apply StronglySorted_inv in Hs as [Hs Hlt].
  inversion Hall as [|? ? Ha Hrest]; subst.
  assert (Hl : Z.of_nat (List.length l) <= hi - (a + 1)).
  { apply IH; [assumption | | lia].
    rewrite Forall_forall in *. intros x Hx.
    specialize (Hlt x Hx). specialize (Hrest x Hx). lia. }
  lia.
Qed.

(** From any state a run reaches, a call never moves the counter back and
    advances it by the number of detections at most, never past 2^53; the
    table grows by no more than the number of detections and never holds
    more tracks than the value of the counter.  As long as the counter is
    below 2^53 after the call, the table has grown by no more than the
    counter has advanced, and holds fewer tracks than the counter's
    value. *)
Theorem frame_creates_at_most_one_track_per_face {E : Engine}
    (frames : list (float * list Detection)) (now : float) (dets : list Detection) :
  let st := run init frames in
  let st' := snd (assignTracks now st dets) in
  nextId st <= nextId st' <= nextId st + Z.of_nat (List.length dets)
  /\ nextId st' <= 2 ^ 53
  /\ Z.of_nat (List.length (tracks st'))
     <= Z.of_nat (List.length (tracks st)) + Z.of_nat (List.length dets)
  /\ Z.of_nat (List.length (tracks st')) <= nextId st'
  /\ (nextId st' < 2 ^ 53 ->
      Z.of_nat (List.length (tracks st'))
      <= Z.of_nat (List.length (tracks st)) + (nextId st' - nextId st)
      /\ Z.of_nat (List.length (tracks st')) <= nextId st' - 1).
Proof.
  intros st st'.
  assert (Hsound : sound st) by (apply sound_run, wf_sound, wf_init).
  assert (Hsound' : sound st') by (now apply sound_assignTracks).
  pose proof (matchAll_counter now dets st) as Hids.
  assert (Hshrink : (List.length (tracks st')
                     <= List.length (tracks (snd (matchAll now st dets))))%nat).
  { unfold st', assignTracks, cleanup. cbn [snd tracks]. apply filter_length_le. }
  split; [exact Hids|]. split; [|split; [|split]].
  - apply (matchAll_top now dets st). apply run_top. cbn. lia.
  - pose proof (matchAll_length now dets st). lia.
  - destruct Hsound' as (Hs & Hall & Hn).
    rewrite <- (length_map fst (tracks st')).
    pose proof (sorted_length _ 1 (nextId st' + 1) Hs) as Hlen.
    assert (Hin : Forall (fun x => 1 <= x < nextId st' + 1) (map fst (tracks st'))).
    { eapply Forall_impl; [|exact Hall]. intros x Hx. cbv beta in Hx. lia. }
    specialize (Hlen Hin). unfold TrackMap.keys in Hlen. lia.
  - intros Hlt.
    assert (Hlt0 : nextId st < 2 ^ 53).
    { change (nextId st') with (nextId (snd (matchAll now st dets))) in Hlt. lia. }
    assert (Hwf : wf st) by (apply wf_run; [apply wf_init | exact Hlt0]).
    pose proof (matchAll_grows now dets st Hwf Hlt) as Hlen.
    pose proof (wf_assignTracks now st dets Hwf Hlt) as (Hs & Hall & Hn).
    split.
    + change (nextId st') with (nextId (snd (matchAll now st dets))). lia.
    + rewrite <- (length_map fst (tracks st')).
      apply (sorted_length _ 1 (nextId st')); assumption.
Qed.

End Sizes.

Section Drawn.
Import TrackMap TrackMapFacts.
#[local] Open Scope Z_scope.

(** A frame with one face, end to end.  When the matcher accepts no track,
    the face gets the next identity and is drawn with its own raw vector;
    when it accepts a track, the face gets that identity and is drawn with
    the track's vector smoothed once more, with weight 0.6 on the old
    vector. *)
Theorem lone_face_is_drawn_with_its_track {E : Engine}
    (now : float) (st : State) (det : Detection) :
  sound st ->
  exists d id,
    fst (assignTracks now st [det]) = [d]
    /\ trackId d = Some id
    /\ box d = box det
    /\ (accept now st det = None ->
          id = nextId st
          /\ overlayExpressions (tracks (snd (assignTracks now st [det]))) d
             = expressions det)
    /\ (forall bestId, accept now st det = Some bestId ->
          exists t,
            get (tracks st) bestId = Some t
            /\ id = bestId
            /\ overlayExpressions (tracks (snd (assignTracks now st [det]))) d
               = emaExpressions (Some (exprEMA t)) (expressions det) 0.6%float).
Proof.
  intros Hwf.
  pose proof (sound_assignOne now st det Hwf) as Hwf1.
  pose proof (sound_NoDup _ Hwf1) as Hnd1.
  unfold assignTracks. cbn [matchAll fst snd tracks].
  unfold assignOne in *.
  destruct (accept now st det) as [bestId|] eqn:Hacc.
  - exists (withTrackId det bestId), bestId.
    split; [reflexivity|]. split; [reflexivity|]. split; [reflexivity|].
    split; [discriminate|]. intros ? [= <-].
    destruct (accept_in _ _ _ _ Hacc) as (t & Hin & _).
    pose proof (in_get _ _ _ (sound_NoDup _ Hwf) Hin) as Hget.
    exists t. split; [exact Hget|]. split; [reflexivity|].
    assert (Hpos : 1 <= bestId <= nextId st)
      by (eapply sound_within; eauto using in_keys).
    unfold overlayExpressions, labelOf. cbn [trackId withTrackId expressions].
    destruct (Z.eqb_spec bestId 0); [lia|].
    rewrite cleanup_get by exact Hnd1.
    cbn [updateExisting snd tracks]. rewrite get_alter, Z.eqb_refl, Hget.
    cbn [option_map touched lastSeen].
    rewrite F64.sub_diag_not_above by reflexivity. reflexivity.
  - exists (withTrackId det (nextId st)), (nextId st).
    split; [reflexivity|]. split; [reflexivity|]. split; [reflexivity|].
    split; [|discriminate]. intros _. split; [reflexivity|].
    destruct Hwf as (Hs & Hall & Hn).
    unfold overlayExpressions, labelOf. cbn [trackId withTrackId expressions].
    destruct (Z.eqb_spec (nextId st) 0); [lia|].
    rewrite cleanup_get by exact Hnd1.
    cbn [newTrack snd tracks]. rewrite get_set_eq.
    cbn [fresh lastSeen].
    rewrite F64.sub_diag_not_above by reflexivity. reflexivity.
Qed.

Lemma lone_face_is_drawn_with_its_track_witness :
  exists d id,
    fst (assignTracks 1050 Sample.seenOnce [Sample.second]) = [d]
    /\ trackId d = Some id
    /\ box d = box Sample.second
    /\ (accept 1050 Sample.seenOnce Sample.second = None ->
          id = nextId Sample.seenOnce
          /\ overlayExpressions
               (tracks (snd (assignTracks 1050 Sample.seenOnce [Sample.second]))) d
             = expressions Sample.second)
    /\ (forall bestId, accept 1050 Sample.seenOnce Sample.second = Some bestId ->
          exists t,
            get (tracks Sample.seenOnce) bestId = Some t
            /\ id = bestId
            /\ overlayExpressions
                 (tracks (snd (assignTracks 1050 Sample.seenOnce [Sample.second]))) d
               = emaExpressions (Some (exprEMA t)) (expressions Sample.second) 0.6%float).
Proof.
  apply (lone_face_is_drawn_with_its_track (E := Sample.engine)
           1050 Sample.seenOnce Sample.second).
  apply wf_sound. wf_eval.
Defined.

(** After a call from any state a run reaches, every detection carries a
    positive identity: the fallback label ['?'] of line 148 is never the
    one drawn, and the dot pushed on the trail for the face carries the
    number. *)
Theorem tracked_faces_are_labelled_by_number {E : Engine}
    (frames : list (float * list Detection)) (now : float) (dets : list Detection) :
  Forall (fun d => exists id,
            1 <= id /\ labelOf d = IdNumber id /\ Trail.id (dotOf d) = IdNumber id)
         (fst (assignTracks now (run init frames) dets)).
Proof.
  assert (Hs : sound (run init frames)) by (apply sound_run, wf_sound, wf_init).
  eapply Forall_impl; [|exact (assignTracks_tracked now _ dets Hs)].
  intros d (id & t & Hid & Hpos & Hget).
  exists id. unfold dotOf, labelOf. cbn [Trail.id]. rewrite Hid.
  split; [exact Hpos | split; reflexivity].
Qed.

End Drawn.

(** ** Numbers *)

(** NaN stays: a component of [V] that the starting vector lacks, or has
    as NaN, is NaN after every call of the smoother with current vector
    [V], however many calls follow. *)
Theorem ema_nan_is_permanent {num : Type} `{ArithNaN num}
    (alpha : num) (V start : Obj.t num) (k : string) (v : num) (n : nat) :
  k <> "__proto__"%string ->
  Obj.get V k = Some v ->
  prop start k = n_nan ->
  Obj.get (smoothTimes (S n) alpha V start) k = Some n_nan.
Proof.
  intros Hk HV Hstart. apply ObjFacts.settable_spec in Hk.
  induction n as [|n IH].
  - change (smoothTimes 1 alpha V start) with (emaExpressions (Some start) V alpha).
    rewrite (ema_get start V alpha k v Hk HV), Hstart.
    now rewrite n_mul_nan, n_add_nan.
  - rewrite smoothTimes_succ.
    rewrite (ema_get _ V alpha k v Hk HV).
    unfold prop at 1. rewrite IH.
    now rewrite n_mul_nan, n_add_nan.
Qed.

Lemma ema_nan_is_permanent_witness :
  Obj.get (smoothTimes 3 0.6%float [("happy"%string, 0.5%float)] []) "happy"%string
  = Some nan.
Proof.
  exact (ema_nan_is_permanent (num := float) 0.6%float [("happy"%string, 0.5%float)] []
           "happy"%string 0.5%float 2%nat ltac:(discriminate) eq_refl eq_refl).
Defined.

Section Bounds.
#[local] Open Scope float_scope.
Import F64Order.

(** [clamp(v, a, b)] is never below [a]; when [a <= b] it is never above
    [b]; and it is [v] (up to the sign of a zero) when [v] lies between
    [a] and [b].  With NaN among the arguments the result is NaN, for which
    no comparison holds. *)
Theorem clamp_stays_within_bounds (v a b : float) :
  (clamp v a b <? a) = false
  /\ ((a <=? b) = true -> (b <? clamp v a b) = false)
  /\ ((a <=? v) = true -> (v <=? b) = true -> (clamp v a b =? v) = true).
Proof.
  unfold clamp.
  destruct (is_nan a || is_nan (Math_min b v)) eqn:Hnan.
  - assert (Hm : Math_max a (Math_min b v) = nan) by (unfold Math_max; now rewrite Hnan).
    rewrite Hm. split; [apply ltb_nan_l|]. split; [intros _; apply ltb_nan_r|].
    intros Hav Hvb. exfalso.
    apply leb_number in Hav as [Ha Hv]. apply leb_number in Hvb as [_ Hb].
    destruct (Math_min_spec b v Hb Hv) as [[Heq|Heq] _];
      rewrite Heq, ?(is_nan_number a Ha), ?(is_nan_number b Hb), ?(is_nan_number v Hv)
        in Hnan; discriminate.
  - apply orb_false_iff in Hnan as [Ha Hm].
    apply not_nan_number in Ha. apply not_nan_number in Hm.
    destruct (Math_max_spec a (Math_min b v) Ha Hm) as (Hor & Hlow & Hup).
    split; [now apply leb_not_ltb|].
    assert (Hbv : (b =? b) = true /\ (v =? v) = true).
    { unfold Math_min in Hm. destruct (is_nan b || is_nan v) eqn:E; [discriminate|].
      apply orb_false_iff in E as [Eb Ev]. split; now apply not_nan_number. }
    destruct Hbv as [Hb Hv].
    destruct (Math_min_spec b v Hb Hv) as (Hmor & Hmb & Hmv).
    split.
    + intros Hab. apply leb_not_ltb.
      destruct Hor as [->| ->]; assumption.
    + intros Hav Hvb.
      assert (Hmin : (Math_min b v =? v) = true).
      { destruct Hmor as [Heq|Heq]; rewrite Heq; [|exact Hv].
        rewrite Heq in Hmv.
        rewrite leb_ltb_eqb in Hmv, Hvb.
        destruct (b =? v) eqn:E; [reflexivity|]. rewrite orb_false_r in Hmv.
        rewrite (eqb_sym v b), E, orb_false_r in Hvb.
        rewrite (ltb_asym _ _ Hmv) in Hvb. discriminate. }
      destruct Hor as [Heq|Heq]; rewrite Heq; [|exact Hmin].
      rewrite Heq in Hup.
      assert (Hva : (v <=? a) = true).
      { apply (leb_trans v (Math_min b v) a); [|exact Hup].
        apply eqb_leb. now rewrite eqb_sym. }
      rewrite leb_ltb_eqb in Hva, Hav.
      destruct (a =? v) eqn:E; [reflexivity|]. rewrite orb_false_r in Hav.
      rewrite (eqb_sym v a), E, orb_false_r in Hva.
      rewrite (ltb_asym _ _ Hav) in Hva. discriminate.
Qed.

(** The emoji is never drawn larger than the slider says, and never
    smaller than 32 pixels unless the slider is below 32. *)
Theorem emoji_size_stays_within_bounds (emojiSize : float) (b : Box.t) :
  (emojiSize <? emojiSizeFor emojiSize b) = false
  /\ ((emojiSizeFor emojiSize b <? 32) = true -> (emojiSize <? 32) = true).
Proof.
  unfold emojiSizeFor. set (m := Math_max 32 (Box.width b * 0.7)).
  destruct (is_nan emojiSize || is_nan m) eqn:Hnan.
  - assert (Hs : Math_min emojiSize m = nan) by (unfold Math_min; now rewrite Hnan).
    rewrite Hs. split; [apply ltb_nan_r|]. now rewrite ltb_nan_l.
  - apply orb_false_iff in Hnan as [Hs Hm].
    apply not_nan_number in Hs. apply not_nan_number in Hm.
    destruct (Math_min_spec emojiSize m Hs Hm) as (Hor & Hle & _).
    split; [now apply leb_not_ltb|].
    destruct Hor as [->| ->]; [auto|].
    intros Hlt. exfalso.
    assert (Hw : (Box.width b * 0.7 =? Box.width b * 0.7) = true).
    { unfold m, Math_max in Hm.
      destruct (is_nan 32 || is_nan (Box.width b * 0.7)) eqn:E; [discriminate|].
      apply orb_false_iff in E as [_ E]. now apply not_nan_number. }
    destruct (Math_max_spec 32 (Box.width b * 0.7) eq_refl Hw) as (_ & Hlow & _).
    fold m in Hlow. apply leb_not_ltb in Hlow. congruence.
Qed.

End Bounds.
